(** * Gameplay simulation core of the peer-synchronised shooter

    A shallow embedding of the deterministic simulation core
    (src/game/weapons.ts, the simulation module with [stepPlayerMovement],
    [computeWeaponDamage], [applyDamage], [pickSpawnPoint], and the
    [pickTeam] / [resolveSpawnPoint] / [isSpawnSafe] methods of the game
    class), followed by the properties the specification states about it.

    Number model.  JavaScript numbers are modelled exactly:
    - counters and millisecond timestamps ([Date.now()]) are integers, [Z];
    - int32 bit arithmetic of the string hash is [Z] with the wrap-around
      written out ([toInt32]);
    - every other quantity (positions, velocities, damage, health) is an
      exact rational, [Q]; equality on them is [==] ([Qeq]).
    [Math.cos], [Math.sin] and [Math.hypot] have no rational model; the
    movement step takes them as section variables. *)

From Stdlib Require Import ZArith QArith Qminmax Qabs Qround.
From Stdlib Require Import Bool List String Ascii DecimalString DecimalPos.
From Stdlib Require Import Lia Lqa.
Import ListNotations.

Local Open Scope Z_scope.

(* ================================================================== *)
(** * Part I.  The program                                             *)
(* ================================================================== *)

(** ** types.ts *)

Inductive WeaponId : Type := assaultRifle | shotgun | pistol.

Record WeaponSpec : Type := {
  id : WeaponId;
  label : string;
  modelPath : string;
  fireIntervalMs : Z;
  reloadMs : Z;
  magSize : Z;
  reserveAmmo : Z;
  pellets : Z;
  spread : Q;
  baseDamage : Q;
  falloffPerMeter : Q;
  armorPenetration : Q;
  headshotMultiplier : Q;
  automatic : bool;
  recoilPitch : Q;
  recoilYaw : Q;
  muzzleFlashIntensity : Q
}.

(** [reloadingUntil: number | null] is an [option]. *)
Record WeaponRuntimeState : Type := {
  weaponId : WeaponId;
  ammoInMag : Z;
  ammoReserve : Z;
  lastShotAt : Z;
  reloadingUntil : option Z
}.

Record InputState : Type := {
  moveForward : bool;
  moveBackward : bool;
  moveLeft : bool;
  moveRight : bool;
  sprint : bool;
  crouch : bool;
  jump : bool;
  firing : bool
}.

Record Vec3 : Type := { x : Q; y : Q; z : Q }.

Record Aabb : Type := { min : Vec3; max : Vec3 }.

Record PlayerBodyState : Type := {
  position : Vec3;
  velocity : Vec3;
  yaw : Q;
  pitch : Q;
  grounded : bool;
  crouching : bool
}.

Record DamageState : Type := { health : Q; armor : Q }.

Definition SpawnPoint : Type := Vec3.

(** The [health] and [armor] fields of the result are [res_health] and
    [res_armor] here, apart from those of [DamageState]. *)
Record DamageResolution : Type := {
  res_health : Q;
  res_armor : Q;
  damageApplied : Q;
  isEliminated : bool
}.

(** ** weapons.ts *)

Definition WEAPON_ORDER : list WeaponId := [assaultRifle; shotgun; pistol].

Definition WEAPONS (w : WeaponId) : WeaponSpec :=
  match w with
  | assaultRifle => {|
      id := assaultRifle;
      label := "AR-44 Viper";
      modelPath := "/assets/models/weapons/assault-rifle.glb";
      fireIntervalMs := 95;
      reloadMs := 2100;
      magSize := 30;
      reserveAmmo := 120;
      pellets := 1;
      spread := 0.011;
      baseDamage := 27;
      falloffPerMeter := 0.012;
      armorPenetration := 0.64;
      headshotMultiplier := 3.8;
      automatic := true;
      recoilPitch := 0.0028;
      recoilYaw := 0.0019;
      muzzleFlashIntensity := 2.2 |}
  | shotgun => {|
      id := shotgun;
      label := "SG-12 Mauler";
      modelPath := "/assets/models/weapons/shotgun.glb";
      fireIntervalMs := 820;
      reloadMs := 2700;
      magSize := 8;
      reserveAmmo := 40;
      pellets := 8;
      spread := 0.055;
      baseDamage := 12;
      falloffPerMeter := 0.048;
      armorPenetration := 0.42;
      headshotMultiplier := 1.8;
      automatic := false;
      recoilPitch := 0.011;
      recoilYaw := 0.006;
      muzzleFlashIntensity := 2.8 |}
  | pistol => {|
      id := pistol;
      label := "PX-9 Phantom";
      modelPath := "/assets/models/weapons/pistol.glb";
      fireIntervalMs := 210;
      reloadMs := 1600;
      magSize := 15;
      reserveAmmo := 60;
      pellets := 1;
      spread := 0.008;
      baseDamage := 31;
      falloffPerMeter := 0.018;
      armorPenetration := 0.57;
      headshotMultiplier := 2.9;
      automatic := false;
      recoilPitch := 0.005;
      recoilYaw := 0.0025;
      muzzleFlashIntensity := 1.8 |}
  end.

Inductive FireResultReason : Type := fired | cooldown | reloading | empty_mag.

Record FireResult : Type := {
  next : WeaponRuntimeState;
  didFire : bool;
  reason : FireResultReason
}.

(** [Number.MAX_SAFE_INTEGER] is 2^53 - 1. *)
Definition MAX_SAFE_INTEGER : Z := 2 ^ 53 - 1.

Definition createWeaponState (w : WeaponId) : WeaponRuntimeState :=
  let spec := WEAPONS w in
  {| weaponId := w;
     ammoInMag := magSize spec;
     ammoReserve := reserveAmmo spec;
     lastShotAt := - MAX_SAFE_INTEGER;
     reloadingUntil := None |}.

(** [state.reloadingUntil !== null && now < state.reloadingUntil] *)
Definition isReloading (state : WeaponRuntimeState) (now : Z) : bool :=
  match reloadingUntil state with
  | Some until => now <? until
  | None => false
  end.

Definition tryFireWeapon (state : WeaponRuntimeState) (now : Z) : FireResult :=
  let spec := WEAPONS (weaponId state) in
  if match reloadingUntil state with
     | Some until => now <? until
     | None => false
     end
  then {| next := state; didFire := false; reason := reloading |}
  else if now - lastShotAt state <? fireIntervalMs spec
  then {| next := state; didFire := false; reason := cooldown |}
  else if ammoInMag state <=? 0
  then {| next := state; didFire := false; reason := empty_mag |}
  else {| next := {| weaponId := weaponId state;
                     ammoInMag := ammoInMag state - 1;
                     ammoReserve := ammoReserve state;
                     lastShotAt := now;
                     reloadingUntil := reloadingUntil state |};
          didFire := true;
          reason := fired |}.

Definition beginReload (state : WeaponRuntimeState) (now : Z)
  : WeaponRuntimeState :=
  let spec := WEAPONS (weaponId state) in
  match reloadingUntil state with
  | Some _ => state
  | None =>
      if (ammoInMag state >=? magSize spec) || (ammoReserve state <=? 0)
      then state
      else {| weaponId := weaponId state;
              ammoInMag := ammoInMag state;
              ammoReserve := ammoReserve state;
              lastShotAt := lastShotAt state;
              reloadingUntil := Some (now + reloadMs spec) |}
  end.

Definition tickReload (state : WeaponRuntimeState) (now : Z)
  : WeaponRuntimeState :=
  let spec := WEAPONS (weaponId state) in
  match reloadingUntil state with
  | None => state
  | Some until =>
      if now <? until then state
      else
        let missing := magSize spec - ammoInMag state in
        let refill := Z.min missing (ammoReserve state) in
        {| weaponId := weaponId state;
           ammoInMag := ammoInMag state + refill;
           ammoReserve := ammoReserve state - refill;
           lastShotAt := lastShotAt state;
           reloadingUntil := None |}
  end.

(** ** JavaScript number and string primitives used by the simulation *)

Local Open Scope Q_scope.

(** Comparisons on numbers, as booleans. *)
Definition Qltb (a b : Q) : bool := negb (Qle_bool b a).
Definition Qgtb (a b : Q) : bool := Qltb b a.
Definition Qleb (a b : Q) : bool := Qle_bool a b.
Definition Qgeb (a b : Q) : bool := Qle_bool b a.

(** [Number(b)] for a boolean [b]. *)
Definition Number_of_bool (b : bool) : Q := if b then 1 else 0.

(** [Math.sign] *)
Definition Math_sign (v : Q) : Q :=
  if Qltb 0 v then 1 else if Qltb v 0 then -1 else 0.

(** [Math.round]: the nearest integer, ties towards plus infinity. *)
Definition Math_round (v : Q) : Z := Qfloor (v + (1 # 2)).

(** [ToInt32]: wrap an integer into the signed 32-bit range. *)
Definition toInt32 (n : Z) : Z :=
  let m := (n mod 2 ^ 32)%Z in
  if (m >=? 2 ^ 31)%Z then (m - 2 ^ 32)%Z else m.

(** [a << k] on int32 operands. *)
Definition shiftLeft32 (a k : Z) : Z :=
  toInt32 (Z.shiftl (toInt32 a) (Z.land k 31)).

(** [a | b] on int32 operands. *)
Definition bitOr32 (a b : Z) : Z :=
  toInt32 (Z.lor (toInt32 a) (toInt32 b)).

(** A JavaScript string is its sequence of UTF-16 code units;
    [s.charCodeAt(i)] is the [i]-th element. *)
Definition JsString : Type := list Z.

Definition charCodes (s : string) : JsString :=
  List.map (fun c => Z.of_N (N_of_ascii c)) (list_ascii_of_string s).

(** [String(n)] for an integer [n]: its decimal digits, with a leading
    minus sign when negative. *)
Definition numberToString (n : Z) : JsString :=
  charCodes (NilZero.string_of_int (Z.to_int n)).

(** [arr[i]]: [None] stands for [undefined]. *)
Definition arrayGet {A : Type} (arr : list A) (i : Z) : option A :=
  if (i <? 0)%Z then None else nth_error arr (Z.to_nat i).

(** ** The simulation module *)

Definition PLAYER_RADIUS : Q := 0.34.
Definition PLAYER_HEIGHT_STANDING : Q := 1.72.
Definition PLAYER_HEIGHT_CROUCHING : Q := 1.24.

Definition WALK_SPEED : Q := 5.6.
Definition SPRINT_SPEED : Q := 8.8.
Definition CROUCH_SPEED : Q := 3.2.
Definition ACCELERATION : Q := 48.
Definition FRICTION : Q := 32.
Definition GRAVITY : Q := 26.
Definition JUMP_VELOCITY : Q := 8.9.

Record ArenaBounds : Type := {
  minX : Q;
  maxX : Q;
  minZ : Q;
  maxZ : Q;
  floorY : Q
}.

Definition approach (current target maxDelta : Q) : Q :=
  if Qleb (Qabs (target - current)) maxDelta
  then target
  else current + Math_sign (target - current) * maxDelta.

Definition clamp (value lo hi : Q) : Q :=
  if Qltb value lo then lo
  else if Qgtb value hi then hi
  else value.

(** One iteration of the loop of [resolveHorizontalCollisions]: the
    accumulator is the pair [(nextPosition, nextVelocity)]. *)
Definition resolveObstacle (playerBottom playerTop : Q)
    (acc : Vec3 * Vec3) (obstacle : Aabb) : Vec3 * Vec3 :=
  let (nextPosition, nextVelocity) := acc in
  let overlapsVertically :=
    Qltb playerBottom (y (max obstacle)) && Qgtb playerTop (y (min obstacle)) in
  if negb overlapsVertically then acc
  else
    let expandedMinX := x (min obstacle) - PLAYER_RADIUS in
    let expandedMaxX := x (max obstacle) + PLAYER_RADIUS in
    let expandedMinZ := z (min obstacle) - PLAYER_RADIUS in
    let expandedMaxZ := z (max obstacle) + PLAYER_RADIUS in
    if Qleb (x nextPosition) expandedMinX
       || Qgeb (x nextPosition) expandedMaxX
       || Qleb (z nextPosition) expandedMinZ
       || Qgeb (z nextPosition) expandedMaxZ
    then acc
    else
      let distanceToLeft := Qabs (x nextPosition - expandedMinX) in
      let distanceToRight := Qabs (expandedMaxX - x nextPosition) in
      let distanceToBack := Qabs (z nextPosition - expandedMinZ) in
      let distanceToFront := Qabs (expandedMaxZ - z nextPosition) in
      let minDistance :=
        Qmin distanceToLeft
          (Qmin distanceToRight (Qmin distanceToBack distanceToFront)) in
      if Qeq_bool minDistance distanceToLeft then
        ({| x := expandedMinX; y := y nextPosition; z := z nextPosition |},
         {| x := Qmin (x nextVelocity) 0;
            y := y nextVelocity; z := z nextVelocity |})
      else if Qeq_bool minDistance distanceToRight then
        ({| x := expandedMaxX; y := y nextPosition; z := z nextPosition |},
         {| x := Qmax (x nextVelocity) 0;
            y := y nextVelocity; z := z nextVelocity |})
      else if Qeq_bool minDistance distanceToBack then
        ({| x := x nextPosition; y := y nextPosition; z := expandedMinZ |},
         {| x := x nextVelocity; y := y nextVelocity;
            z := Qmin (z nextVelocity) 0 |})
      else
        ({| x := x nextPosition; y := y nextPosition; z := expandedMaxZ |},
         {| x := x nextVelocity; y := y nextVelocity;
            z := Qmax (z nextVelocity) 0 |}).

Definition resolveHorizontalCollisions (position velocity : Vec3)
    (playerHeight : Q) (obstacles : list Aabb) : Vec3 * Vec3 :=
  let playerBottom := y position in
  let playerTop := playerBottom + playerHeight in
  fold_left (resolveObstacle playerBottom playerTop) obstacles
    (position, velocity).

Section Movement.

(** [Math.cos], [Math.sin] and [Math.hypot]. *)
Variable Math_cos Math_sin : Q -> Q.
Variable Math_hypot : Q -> Q -> Q.

Definition stepPlayerMovement (state : PlayerBodyState) (input : InputState)
    (dt : Q) (obstacles : list Aabb) (bounds : ArenaBounds)
  : PlayerBodyState :=
  let desiredCrouch := crouch input in
  let speed :=
    if desiredCrouch then CROUCH_SPEED
    else if sprint input && moveForward input && negb (moveBackward input)
         then SPRINT_SPEED
         else WALK_SPEED in
  let localX :=
    Number_of_bool (moveRight input) - Number_of_bool (moveLeft input) in
  let localZ :=
    Number_of_bool (moveForward input)
    - Number_of_bool (moveBackward input) in
  let cosYaw := Math_cos (yaw state) in
  let sinYaw := Math_sin (yaw state) in
  let worldX := localX * cosYaw - localZ * sinYaw in
  let worldZ := - localX * sinYaw - localZ * cosYaw in
  let wishLength := Math_hypot worldX worldZ in
  let '(nextVelocityX, nextVelocityZ) :=
    if Qgtb wishLength 0 then
      let normalizedX := worldX / wishLength in
      let normalizedZ := worldZ / wishLength in
      let targetX := normalizedX * speed in
      let targetZ := normalizedZ * speed in
      (approach (x (velocity state)) targetX (ACCELERATION * dt),
       approach (z (velocity state)) targetZ (ACCELERATION * dt))
    else
      (approach (x (velocity state)) 0 (FRICTION * dt),
       approach (z (velocity state)) 0 (FRICTION * dt)) in
  let '(nextVelocityY, nextGrounded) :=
    if grounded state && jump input && negb desiredCrouch
    then (JUMP_VELOCITY, false)
    else (y (velocity state) - GRAVITY * dt, grounded state) in
  let nextPosition :=
    {| x := clamp (x (position state) + nextVelocityX * dt)
                  (minX bounds + PLAYER_RADIUS)
                  (maxX bounds - PLAYER_RADIUS);
       y := y (position state) + nextVelocityY * dt;
       z := clamp (z (position state) + nextVelocityZ * dt)
                  (minZ bounds + PLAYER_RADIUS)
                  (maxZ bounds - PLAYER_RADIUS) |} in
  let '(nextPosition, nextVelocityY, nextGrounded) :=
    if Qltb (y nextPosition) (floorY bounds)
    then ({| x := x nextPosition; y := floorY bounds; z := z nextPosition |},
          0, true)
    else (nextPosition, nextVelocityY, nextGrounded) in
  let playerHeight :=
    if desiredCrouch then PLAYER_HEIGHT_CROUCHING
    else PLAYER_HEIGHT_STANDING in
  let collisionResult :=
    resolveHorizontalCollisions nextPosition
      {| x := nextVelocityX; y := nextVelocityY; z := nextVelocityZ |}
      playerHeight obstacles in
  {| position := fst collisionResult;
     velocity := snd collisionResult;
     yaw := yaw state;
     pitch := pitch state;
     grounded := nextGrounded;
     crouching := desiredCrouch |}.

End Movement.

Definition computeWeaponDamage (weaponId : WeaponId) (distanceMeters : Q)
    (isHeadshot : bool) : Z :=
  let spec := WEAPONS weaponId in
  let minimumScale := 0.28 in
  let scaled := Qmax minimumScale (1 - distanceMeters * falloffPerMeter spec) in
  let headshotScale := if isHeadshot then headshotMultiplier spec else 1 in
  Z.max 1 (Math_round (baseDamage spec * scaled * headshotScale)).

Definition applyDamage (state : DamageState) (rawDamage : Q)
    (armorPenetration : Q) : DamageResolution :=
  let armorBlockScale := clamp (1 - armorPenetration) 0 1 in
  let armorToSpend := Qmin (armor state) (rawDamage * armorBlockScale * 0.65) in
  let healthDamage := rawDamage - armorToSpend * 0.55 in
  let nextArmor := Qmax 0 (armor state - armorToSpend) in
  let nextHealth := Qmax 0 (health state - healthDamage) in
  {| res_health := nextHealth;
     res_armor := nextArmor;
     damageApplied := health state - nextHealth;
     isEliminated := Qleb nextHealth 0 |}.

(** The loop of [hashString]: [hash = (hash << 5) - hash + c; hash |= 0]
    for each code unit [c] in order. *)
Definition hashString (input : JsString) : Z :=
  fold_left
    (fun hash c => bitOr32 (shiftLeft32 hash 5 - hash + c)%Z 0)
    input 0%Z.

Definition colon : JsString := charCodes ":".

Definition pickSpawnPoint (matchCode playerName : JsString)
    (spawnPoints : list SpawnPoint) (wave : Z) : option SpawnPoint :=
  if (Z.of_nat (List.length spawnPoints) =? 0)%Z
  then Some {| x := 0; y := 0; z := 0 |}
  else
    let seed :=
      (matchCode ++ colon ++ playerName ++ colon ++ numberToString wave)%list in
    let hash := hashString seed in
    arrayGet spawnPoints (Z.rem (Z.abs hash) (Z.of_nat (List.length spawnPoints))).

(** ** Methods of the game class *)

Inductive TeamName : Type := counter | terror.




Section Game.

(** The fields [this.obstacles] and [this.spawnPoints]. *)
Variable obstacles : list Aabb.
Variable spawnPoints : list SpawnPoint.

(** The loop of [isSpawnSafe] over the remaining obstacles. *)
Fixpoint isSpawnSafe_from (rest : list Aabb) (spawn : SpawnPoint) : bool :=
  let radius := 0.65 in
  let feetY := y spawn in
  let headY := y spawn + PLAYER_HEIGHT_STANDING in
  match rest with
  | [] => true
  | obstacle :: rest' =>
      let overlapsVertical :=
        Qltb feetY (y (max obstacle)) && Qgtb headY (y (min obstacle)) in
      if negb overlapsVertical then isSpawnSafe_from rest' spawn
      else if Qleb (x spawn + radius) (x (min obstacle))
              || Qgeb (x spawn - radius) (x (max obstacle))
              || Qleb (z spawn + radius) (z (min obstacle))
              || Qgeb (z spawn - radius) (z (max obstacle))
      then isSpawnSafe_from rest' spawn
      else false
  end.

Definition isSpawnSafe (spawn : SpawnPoint) : bool :=
  isSpawnSafe_from obstacles spawn.

(** The scan of [resolveSpawnPoint] over the remaining spawn points. *)
Fixpoint firstSafeSpawn (rest : list SpawnPoint) : option SpawnPoint :=
  match rest with
  | [] => None
  | spawn :: rest' =>
      if isSpawnSafe spawn then Some spawn else firstSafeSpawn rest'
  end.

Definition resolveSpawnPoint (preferred : SpawnPoint) : SpawnPoint :=
  if isSpawnSafe preferred then preferred
  else match firstSafeSpawn spawnPoints with
       | Some spawn => spawn
       | None => preferred
       end.

End Game.

(** ** Further code of weapons.ts and of the game class *)

(** [createInitialWeaponStates]: the [Record<WeaponId, WeaponRuntimeState>]
    is a function of the weapon kind. *)
Definition createInitialWeaponStates : WeaponId -> WeaponRuntimeState :=
  fun w =>
    match w with
    | assaultRifle => createWeaponState assaultRifle
    | shotgun => createWeaponState shotgun
    | pistol => createWeaponState pistol
    end.

(** A number that may be infinite: the ray casts start from
    [-Infinity] and [Infinity]. *)
Inductive Num : Type := NegInfinity | Finite (q : Q) | PosInfinity.

Definition num_ltb (a b : Num) : bool :=
  match a, b with
  | NegInfinity, NegInfinity => false
  | NegInfinity, _ => true
  | Finite _, NegInfinity => false
  | Finite p, Finite q => Qltb p q
  | Finite _, PosInfinity => true
  | PosInfinity, _ => false
  end.

Definition num_geb (a b : Num) : bool := negb (num_ltb a b).

(** [Math.max] and [Math.min] on two such numbers. *)
Definition num_max (a b : Num) : Num := if num_ltb a b then b else a.
Definition num_min (a b : Num) : Num := if num_ltb b a then b else a.

Definition WORLD_HALF_SIZE : Q := 31.

(** The body of the loop of [intersectRayAabb] for one axis: [dir],
    [originValue], [lo] and [hi] are the components of the direction, the
    origin and the obstacle's corners on that axis; [None] is the
    [return null] inside the loop. *)
Definition slabStep (acc : Num * Num) (dir originValue lo hi : Q)
  : option (Num * Num) :=
  let epsilon := 1 # 1000000 in
  let (tMin, tMax) := acc in
  if Qltb (Qabs dir) epsilon then
    if Qltb originValue lo || Qgtb originValue hi then None else Some acc
  else
    let t1 := (lo - originValue) / dir in
    let t2 := (hi - originValue) / dir in
    let (t1, t2) := if Qgtb t1 t2 then (t2, t1) else (t1, t2) in
    let tMin := num_max tMin (Finite t1) in
    let tMax := num_min tMax (Finite t2) in
    if num_ltb tMax tMin then None else Some (tMin, tMax).

(** The loop of [intersectRayAabb] over the remaining axes. *)
Fixpoint slabLoop (axis : list (Vec3 -> Q)) (origin direction : Vec3)
    (obstacle : Aabb) (acc : Num * Num) : option (Num * Num) :=
  match axis with
  | [] => Some acc
  | key :: rest =>
      match slabStep acc (key direction) (key origin)
              (key (min obstacle)) (key (max obstacle)) with
      | None => None
      | Some acc' => slabLoop rest origin direction obstacle acc'
      end
  end.

Definition intersectRayAabb (origin direction : Vec3) (obstacle : Aabb)
  : option Num :=
  let axis := [x; y; z] in
  match slabLoop axis origin direction obstacle (NegInfinity, PosInfinity) with
  | None => None
  | Some (tMin, tMax) =>
      if num_ltb tMax (Finite 0) then None
      else if num_geb tMin (Finite 0) then Some tMin
      else if num_geb tMax (Finite 0) then Some tMax
      else None
  end.

(** [Number.isFinite(nearest) ? nearest : null] *)
Definition finiteOrNull (n : Num) : option Q :=
  match n with
  | Finite q => Some q
  | _ => None
  end.

Definition findNearestObstacleDistance (origin direction : Vec3)
    (obstacles : list Aabb) : option Q :=
  let nearest :=
    fold_left
      (fun nearest obstacle =>
         match intersectRayAabb origin direction obstacle with
         | None => nearest
         | Some hitDistance =>
             if num_ltb hitDistance nearest then hitDistance else nearest
         end)
      obstacles PosInfinity in
  finiteOrNull nearest.

(** [worldToMap] returns the pair [{x, y}]. *)
Definition worldToMap (wx wz width height : Q) : Q * Q :=
  let normalizedX := (wx + WORLD_HALF_SIZE) / (WORLD_HALF_SIZE * 2) in
  let normalizedY := (wz + WORLD_HALF_SIZE) / (WORLD_HALF_SIZE * 2) in
  (clamp normalizedX 0 1 * width, clamp normalizedY 0 1 * height).

(** ** Hit scan *)

(** The [THREE.Vector3] operations the hit scan uses: [a.clone().sub(b)],
    [a.clone().add(b)], [a.clone().multiplyScalar(k)], [a.dot(b)] and
    [a.distanceToSquared(b)]. *)
Definition vsub (a b : Vec3) : Vec3 :=
  {| x := x a - x b; y := y a - y b; z := z a - z b |}.
Definition vadd (a b : Vec3) : Vec3 :=
  {| x := x a + x b; y := y a + y b; z := z a + z b |}.
Definition multiplyScalar (a : Vec3) (k : Q) : Vec3 :=
  {| x := x a * k; y := y a * k; z := z a * k |}.
Definition vdot (a b : Vec3) : Q := x a * x b + y a * y b + z a * z b.
Definition distanceToSquared (a b : Vec3) : Q :=
  (x a - x b) * (x a - x b) + (y a - y b) * (y a - y b)
  + (z a - z b) * (z a - z b).

(** The fields of [RemotePlayer] that the hit scan reads. *)
Record RemotePlayer : Type := {
  peerId : string;
  playerName : string;
  team : TeamName;
  targetPosition : Vec3;
  alive : bool;
  headY : Q
}.

(** The object [findShotHit] returns. *)
Record ShotHit : Type := {
  hit_peerId : string;
  hit_playerName : string;
  distance : Q;
  headshot : bool
}.

Definition ALLOW_TEAM_DAMAGE : bool := true.

Definition TeamName_eqb (a b : TeamName) : bool :=
  match a, b with
  | counter, counter | terror, terror => true
  | _, _ => false
  end.

(** [hit ?? Number.POSITIVE_INFINITY] *)
Definition orInfinity (hit : option Q) : Num :=
  match hit with
  | Some t => Finite t
  | None => PosInfinity
  end.

Section HitScan.

(** [Math.sqrt]. *)
Variable Math_sqrt : Q -> Q.

Definition intersectRaySphere (origin direction center : Vec3) (radius : Q)
  : option Q :=
  let toCenter := vsub center origin in
  let projected := vdot toCenter direction in
  if Qleb projected 0 then None
  else
    let closestPoint := vadd origin (multiplyScalar direction projected) in
    let distSq := distanceToSquared closestPoint center in
    let radiusSq := radius * radius in
    if Qgtb distSq radiusSq then None
    else
      let penetration := Math_sqrt (radiusSq - distSq) in
      let t := projected - penetration in
      Some (if Qgtb t 0 then t else projected).

(** The fields [this.obstacles], [this.remotePlayers] (its values, in
    insertion order) and [this.localTeam]. *)
Variable obstacles : list Aabb.
Variable remotePlayers : list RemotePlayer.
Variable localTeam : TeamName.

(** The body of the loop of [findShotHit] for one remote player;
    returning [closest] unchanged is the loop's [continue]. *)
Definition considerRemote (origin direction : Vec3) (wallDistance : option Q)
    (closest : option ShotHit) (remote : RemotePlayer) : option ShotHit :=
  if negb (alive remote) then closest
  else if negb ALLOW_TEAM_DAMAGE && TeamName_eqb (team remote) localTeam
  then closest
  else
    let bodyCenter :=
      vadd (targetPosition remote) {| x := 0; y := 1.04; z := 0 |} in
    let headCenter :=
      vadd (targetPosition remote) {| x := 0; y := headY remote; z := 0 |} in
    let bodyHit := intersectRaySphere origin direction bodyCenter 0.62 in
    let headHit := intersectRaySphere origin direction headCenter 0.36 in
    let projectedDistance :=
      num_min (orInfinity headHit) (orInfinity bodyHit) in
    match projectedDistance with
    | Finite projectedDistance =>
        if match wallDistance with
           | Some wallDistance =>
               Qgtb wallDistance 0.12
               && Qltb (wallDistance + 0.04) projectedDistance
           | None => false
           end
        then closest
        else
          let headshot :=
            match headHit with
            | Some headHit => Qleb headHit (projectedDistance + 0.06)
            | None => false
            end in
          let found :=
            {| hit_peerId := peerId remote;
               hit_playerName := playerName remote;
               distance := projectedDistance;
               headshot := headshot |} in
          match closest with
          | None => Some found
          | Some current =>
              if Qltb projectedDistance (distance current)
              then Some found
              else closest
          end
    | _ => closest
    end.

Definition findShotHit (origin direction : Vec3) : option ShotHit :=
  let wallDistance :=
    findNearestObstacleDistance origin direction obstacles in
  fold_left (considerRemote origin direction wallDistance) remotePlayers None.

End HitScan.

(* ================================================================== *)
(** * Part II.  Sample inputs and specification-side definitions       *)
(* ================================================================== *)

(** A rifle, a shotgun and a pistol holding one round in the magazine and
    twenty in reserve (the reload scenario of weapons.test.ts, for each
    weapon kind). *)
Definition lowAmmo (w : WeaponId) : WeaponRuntimeState :=
  {| weaponId := w;
     ammoInMag := 1;
     ammoReserve := 20;
     lastShotAt := (- MAX_SAFE_INTEGER)%Z;
     reloadingUntil := None |}.

(** Three spawn points on the arena floor. *)
Definition sampleSpawns : list SpawnPoint :=
  [ {| x := 1; y := 0; z := 1 |};
    {| x := 2; y := 0; z := 2 |};
    {| x := 3; y := 0; z := 3 |} ].

(** The polynomial of the hash over the integers, without any wrap-around:
    [hash * 31 + charCode] at each character. *)
Definition polynomialHash (input : JsString) : Z :=
  fold_left (fun hash c => hash * 31 + c)%Z input 0%Z.

(** The number that a string of decimal digits denotes ([48] is the
    character code of the digit 0). *)
Definition decimalValue (text : JsString) : Z :=
  fold_left (fun value c => value * 10 + (c - 48))%Z text 0%Z.

(** [text] is the decimal numeral of [n]: digits only, at least one, no
    leading zero except for the numeral 0 itself, and denoting [n]. *)
Definition decimalNumeral (n : Z) (text : JsString) : Prop :=
  text <> []
  /\ Forall (fun c => 48 <= c <= 57)%Z text
  /\ (hd 48%Z text = 48%Z -> text = [48%Z])
  /\ decimalValue text = n.

(** The hash as the specification words it: a polynomial rolling hash,
    [hash = hash * 31 + charCode] at each character, wrapped to 32 bits. *)
Definition rollingHash (input : JsString) : Z :=
  fold_left (fun hash c => toInt32 (hash * 31 + c)%Z) input 0%Z.

(** [p] lies strictly inside the footprint of [o] inflated by the player
    radius on x and z, while the span from [y p] to [y p + height] overlaps
    the obstacle's y range. *)
Definition insideInflated (p : Vec3) (height : Q) (o : Aabb) : Prop :=
  y p < y (max o) /\ y (min o) < y p + height
  /\ x (min o) - PLAYER_RADIUS < x p /\ x p < x (max o) + PLAYER_RADIUS
  /\ z (min o) - PLAYER_RADIUS < z p /\ z p < z (max o) + PLAYER_RADIUS.

(** [(p', v')] is [(p, v)] pushed out of the inflated footprint of [o]:
    the position sits on the nearest of the four inflated faces, moved
    along that axis only, and the velocity component along that axis no
    longer points into the box. *)
Definition pushedOut (p v : Vec3) (o : Aabb) (p' v' : Vec3) : Prop :=
  let toLeft := x p - (x (min o) - PLAYER_RADIUS) in
  let toRight := x (max o) + PLAYER_RADIUS - x p in
  let toBack := z p - (z (min o) - PLAYER_RADIUS) in
  let toFront := z (max o) + PLAYER_RADIUS - z p in
  y p' = y p /\ y v' = y v
  /\ ((x p' = x (min o) - PLAYER_RADIUS /\ z p' = z p
       /\ x v' = Qmin (x v) 0 /\ z v' = z v
       /\ toLeft <= toRight /\ toLeft <= toBack /\ toLeft <= toFront)
      \/ (x p' = x (max o) + PLAYER_RADIUS /\ z p' = z p
          /\ x v' = Qmax (x v) 0 /\ z v' = z v
          /\ toRight <= toLeft /\ toRight <= toBack /\ toRight <= toFront)
      \/ (z p' = z (min o) - PLAYER_RADIUS /\ x p' = x p
          /\ z v' = Qmin (z v) 0 /\ x v' = x v
          /\ toBack <= toLeft /\ toBack <= toRight /\ toBack <= toFront)
      \/ (z p' = z (max o) + PLAYER_RADIUS /\ x p' = x p
          /\ z v' = Qmax (z v) 0 /\ x v' = x v
          /\ toFront <= toLeft /\ toFront <= toRight /\ toFront <= toBack)).

(** The axis-aligned box around a spawn point (half-width 0.65 on x and
    z, from the feet up to the standing height) overlaps the obstacle. *)
Definition boxOverlaps (spawn : SpawnPoint) (o : Aabb) : Prop :=
  y spawn < y (max o) /\ y (min o) < y spawn + PLAYER_HEIGHT_STANDING
  /\ x (min o) < x spawn + 0.65 /\ x spawn - 0.65 < x (max o)
  /\ z (min o) < z spawn + 0.65 /\ z spawn - 0.65 < z (max o).

(** The upright cylinder around a spawn point (radius 0.65, from the feet
    up to the standing height) overlaps the obstacle: some point lies
    inside both. *)
Definition cylinderOverlaps (spawn : SpawnPoint) (o : Aabb) : Prop :=
  exists px py pz : Q,
    x (min o) < px /\ px < x (max o)
    /\ y (min o) < py /\ py < y (max o)
    /\ z (min o) < pz /\ pz < z (max o)
    /\ y spawn < py /\ py < y spawn + PLAYER_HEIGHT_STANDING
    /\ (px - x spawn) * (px - x spawn) + (pz - z spawn) * (pz - z spawn)
       < 0.65 * 0.65.

(** A crate and a spawn point off its corner, diagonally: the point is
    0.6 away from the crate on x and on z. *)
Definition cornerCrate : Aabb :=
  {| min := {| x := 1; y := 0; z := 1 |};
     max := {| x := 2; y := 2; z := 2 |} |}.
Definition cornerSpawn : SpawnPoint := {| x := 0.4; y := 0; z := 0.4 |}.

(** A player at the origin facing -z (yaw 0), running forward at walk
    speed towards a wall one metre deep that starts 0.18 units beyond the
    player's radius. *)
Definition wall : Aabb :=
  {| min := {| x := -1; y := 0; z := -2 |};
     max := {| x := 1; y := 3; z := -0.52 |} |}.
Definition runner : PlayerBodyState :=
  {| position := {| x := 0; y := 0; z := 0 |};
     velocity := {| x := 0; y := 0; z := -5.6 |};
     yaw := 0; pitch := 0; grounded := true; crouching := false |}.
Definition forwardKey : InputState :=
  {| moveForward := true; moveBackward := false; moveLeft := false;
     moveRight := false; sprint := false; crouch := false; jump := false;
     firing := false |}.
Definition arena : ArenaBounds :=
  {| minX := -20; maxX := 20; minZ := -20; maxZ := 20; floorY := 0 |}.

(** Values of [Math.cos] and [Math.sin] at yaw 0, and [Math.hypot] on
    vectors along one axis. *)
Definition cos_yaw0 (_ : Q) : Q := 1.
Definition sin_yaw0 (_ : Q) : Q := 0.
Definition hypot_axis (a b : Q) : Q := Qabs a + Qabs b.

(** A weapon state whose magazine holds between 0 and [magSize] rounds
    and whose reserve is not negative. *)
Definition wellFormedWeapon (state : WeaponRuntimeState) : Prop :=
  (0 <= ammoInMag state <= magSize (WEAPONS (weaponId state))
   /\ 0 <= ammoReserve state)%Z.

(** Pull the trigger at each of the given times in turn, keeping the state
    each attempt returns. *)
Fixpoint fireEach (state : WeaponRuntimeState) (times : list Z)
  : WeaponRuntimeState :=
  match times with
  | [] => state
  | t :: rest => fireEach (next (tryFireWeapon state t)) rest
  end.

(** Each time is at least [interval] after the one before it, the first
    one after [last]. *)
Fixpoint spacedFrom (interval last : Z) (times : list Z) : Prop :=
  match times with
  | [] => True
  | t :: rest => (last + interval <= t)%Z /\ spacedFrom interval t rest
  end.

(** An obstacle whose corners are ordered on every axis. *)
Definition wellFormedAabb (o : Aabb) : Prop :=
  x (min o) <= x (max o) /\ y (min o) <= y (max o) /\ z (min o) <= z (max o).

(** The order on possibly infinite numbers: [a] is not above [b]. *)
Definition num_le (a b : Num) : Prop := num_ltb b a = false.

(** The ray is nearly parallel to the planes of the axis [key]: its
    direction component there is below the 1e-6 of [intersectRayAabb]. *)
Definition nearlyParallel (key : Vec3 -> Q) (direction : Vec3) : bool :=
  Qltb (Qabs (key direction)) (1 # 1000000).

(** On the axis [key], the ray reaches the obstacle's extent at distance
    [t]; on an axis it is nearly parallel to, the origin lies in it. *)
Definition withinSlab (origin direction : Vec3) (o : Aabb) (t : Q)
    (key : Vec3 -> Q) : Prop :=
  if nearlyParallel key direction
  then key (min o) <= key origin <= key (max o)
  else key (min o) <= key origin + t * key direction <= key (max o).

(** The ray meets the obstacle at distance [t]: on all three axes. *)
Definition hitsAt (origin direction : Vec3) (o : Aabb) (t : Q) : Prop :=
  withinSlab origin direction o t x
  /\ withinSlab origin direction o t y
  /\ withinSlab origin direction o t z.

(** [t] lies between the two bounds [(tMin, tMax)] that the loop of
    [intersectRayAabb] carries. *)
Definition between (acc : Num * Num) (t : Q) : Prop :=
  num_le (fst acc) (Finite t) /\ num_le (Finite t) (snd acc).

(** The bound pairs the loop can hold: still [(-Infinity, Infinity)], or
    two finite bounds in order. *)
Definition sane (acc : Num * Num) : Prop :=
  match acc with
  | (NegInfinity, PosInfinity) => True
  | (Finite a, Finite b) => a <= b
  | _ => False
  end.

(** A shot from one metre above the origin, straight along -z towards
    the wall of the sample scene, and a shot with no direction at all. *)
Definition muzzle : Vec3 := {| x := 0; y := 1; z := 0 |}.
Definition towardsWall : Vec3 := {| x := 0; y := 0; z := -1 |}.
Definition noDirection : Vec3 := {| x := 0; y := 0; z := 0 |}.

(** The distance at which the hit scan sees a remote player: the nearer
    of the ray's distances to the head sphere (radius 0.36 at [headY]) and
    to the body sphere (radius 0.62 at height 1.04). *)
Definition sphereDistance (Math_sqrt : Q -> Q) (origin direction : Vec3)
    (remote : RemotePlayer) : Num :=
  num_min
    (orInfinity
       (intersectRaySphere Math_sqrt origin direction
          (vadd (targetPosition remote)
                {| x := 0; y := headY remote; z := 0 |}) 0.36))
    (orInfinity
       (intersectRaySphere Math_sqrt origin direction
          (vadd (targetPosition remote) {| x := 0; y := 1.04; z := 0 |})
          0.62)).

(** A wall farther than 0.12 from the shooter stands more than 0.04 in
    front of the distance [d]. *)
Definition wallBlocks (wallDistance : option Q) (d : Q) : Prop :=
  exists w, wallDistance = Some w /\ 0.12 < w /\ w + 0.04 < d.

(** The remote player can be hit at distance [d]: alive, seen at that
    distance, and not behind a wall. *)
Definition hittable (Math_sqrt : Q -> Q) (obstacles : list Aabb)
    (origin direction : Vec3) (remote : RemotePlayer) (d : Q) : Prop :=
  alive remote = true
  /\ sphereDistance Math_sqrt origin direction remote = Finite d
  /\ ~ wallBlocks (findNearestObstacleDistance origin direction obstacles) d.

(** The hit [h] reports the remote player [remote]. *)
Definition reports (Math_sqrt : Q -> Q) (origin direction : Vec3)
    (h : ShotHit) (remote : RemotePlayer) : Prop :=
  hit_peerId h = peerId remote
  /\ hit_playerName h = playerName remote
  /\ (headshot h = true ->
      exists headHit,
        intersectRaySphere Math_sqrt origin direction
          (vadd (targetPosition remote)
                {| x := 0; y := headY remote; z := 0 |}) 0.36
        = Some headHit
        /\ headHit <= distance h + 0.06).

(** What the loop of [findShotHit] knows about the remote players [seen]
    so far: [closest] is empty when none of them can be hit, and otherwise
    reports one of them that can, at a distance no other beats. *)
Definition closestAmong (Math_sqrt : Q -> Q) (obstacles : list Aabb)
    (origin direction : Vec3) (seen : RemotePlayer -> Prop)
    (closest : option ShotHit) : Prop :=
  match closest with
  | None =>
      forall remote d, seen remote ->
        ~ hittable Math_sqrt obstacles origin direction remote d
  | Some h =>
      (exists remote,
         seen remote
         /\ hittable Math_sqrt obstacles origin direction remote (distance h)
         /\ reports Math_sqrt origin direction h remote)
      /\ forall remote d, seen remote ->
           hittable Math_sqrt obstacles origin direction remote d ->
           distance h <= d
  end.

(** A target standing five metres down -z from the muzzle, with the head
    sphere at eye level, and a square root that is exact on the squared
    radii 0.62^2 and 0.36^2 of the two spheres. *)
Definition target : RemotePlayer :=
  {| peerId := "peer-b"; playerName := "Bravo"; team := terror;
     targetPosition := {| x := 0; y := -0.04; z := -5 |};
     alive := true; headY := 1.04 |}.
Definition sqrt_radii (v : Q) : Q :=
  if Qeq_bool v (0.62 * 0.62) then 0.62
  else if Qeq_bool v (0.36 * 0.36) then 0.36 else 0.

(** [r] is [v] limited to the interval from [lo] to [hi]: [lo] below it,
    [v] itself inside it, [hi] above it. *)
Definition limitedTo (v lo hi r : Q) : Prop :=
  (v < lo -> r = lo)
  /\ (lo <= v -> v <= hi -> r = v)
  /\ (lo <= v -> hi < v -> r = hi).

(** The coordinate [r] on the axis [key] is the coordinate [kept], or it
    lies on an inflated face of one of the obstacles. *)
Definition keptOrOnFace (key : Vec3 -> Q) (obstacles : list Aabb)
    (kept r : Q) : Prop :=
  r = kept
  \/ exists o, In o obstacles
               /\ (r = key (min o) - PLAYER_RADIUS
                   \/ r = key (max o) + PLAYER_RADIUS).

(** A crate across the arena's east edge, a player standing beside it
    within its inflated footprint, and no key pressed. *)
Definition edgeCrate : Aabb :=
  {| min := {| x := 19; y := 0; z := -1 |};
     max := {| x := 19.9; y := 3; z := 1 |} |}.
Definition bystander : PlayerBodyState :=
  {| position := {| x := 19.6; y := 0; z := 0 |};
     velocity := {| x := 0; y := 0; z := 0 |};
     yaw := 0; pitch := 0; grounded := true; crouching := false |}.
Definition noKeys : InputState :=
  {| moveForward := false; moveBackward := false; moveLeft := false;
     moveRight := false; sprint := false; crouch := false; jump := false;
     firing := false |}.

(* ================================================================== *)
(** * Part III.  Properties                                            *)
(* ================================================================== *)

(** Split the conjunctions at the head of the goal, and only those. *)
Ltac split_all := repeat match goal with |- _ /\ _ => split end.

(** ** Weapon state machine *)

Section WeaponStateMachine.

Local Open Scope Z_scope.

Variable state : WeaponRuntimeState.
Variable now : Z.

Let spec := WEAPONS (weaponId state).

(** The two guards of [tryFireWeapon], as propositions. *)
Let stillReloading : Prop :=
  exists until, reloadingUntil state = Some until /\ now < until.
Let coolingDown : Prop := now - lastShotAt state < fireIntervalMs spec.

Lemma reloading_guard_true :
  stillReloading ->
  match reloadingUntil state with
  | Some until => now <? until
  | None => false
  end = true.
Proof.
  intros [deadline [Hdeadline Hlt]]. rewrite Hdeadline. now apply Z.ltb_lt.
Qed.

Lemma reloading_guard_false :
  ~ stillReloading ->
  match reloadingUntil state with
  | Some until => now <? until
  | None => false
  end = false.
Proof.
  intros Hnot.
  destruct (reloadingUntil state) as [deadline|] eqn:E; trivial.
  apply Z.ltb_ge. destruct (Z.lt_ge_cases now deadline) as [Hlt|Hge]; trivial.
  exfalso. apply Hnot. exists deadline. now split.
Qed.

(** C2.  [tryFireWeapon] fails with [reloading] while a reload is pending,
    otherwise with [cooldown] inside the fire interval, otherwise with
    [empty_mag] on an empty magazine, and otherwise fires: the magazine
    loses exactly one round, [lastShotAt] becomes [now], reserve and
    [reloadingUntil] are kept.  A failing call returns its input state,
    and the magazine count of a state with a non-negative count stays
    non-negative. *)
Theorem tryFireWeapon_outcomes (Hammo : 0 <= ammoInMag state) :
  let result := tryFireWeapon state now in
  (stillReloading ->
     result = {| next := state; didFire := false; reason := reloading |})
  /\ (~ stillReloading -> coolingDown ->
     result = {| next := state; didFire := false; reason := cooldown |})
  /\ (~ stillReloading -> ~ coolingDown -> ammoInMag state = 0 ->
     result = {| next := state; didFire := false; reason := empty_mag |})
  /\ (~ stillReloading -> ~ coolingDown -> ammoInMag state <> 0 ->
     didFire result = true
     /\ reason result = fired
     /\ ammoInMag (next result) = ammoInMag state - 1
     /\ lastShotAt (next result) = now
     /\ ammoReserve (next result) = ammoReserve state
     /\ reloadingUntil (next result) = reloadingUntil state
     /\ weaponId (next result) = weaponId state)
  /\ (didFire result = false -> next result = state)
  /\ 0 <= ammoInMag (next result).
Proof.
  unfold stillReloading, coolingDown, spec. cbv zeta.
  split_all.
  - intros Hbusy. unfold tryFireWeapon.
    now rewrite (reloading_guard_true Hbusy).
  - intros Hfree Hcool. unfold tryFireWeapon.
    rewrite (reloading_guard_false Hfree).
    apply Z.ltb_lt in Hcool. now rewrite Hcool.
  - intros Hfree Hwarm Hempty. unfold tryFireWeapon.
    rewrite (reloading_guard_false Hfree).
    apply Z.nlt_ge, Z.ltb_ge in Hwarm. rewrite Hwarm, Hempty. reflexivity.
  - intros Hfree Hwarm Hloaded. unfold tryFireWeapon.
    rewrite (reloading_guard_false Hfree).
    apply Z.nlt_ge, Z.ltb_ge in Hwarm. rewrite Hwarm.
    assert (Hpos : (ammoInMag state <=? 0) = false) by (apply Z.leb_gt; lia).
    rewrite Hpos. cbn. split_all; reflexivity.
  - unfold tryFireWeapon.
    repeat match goal with
           | |- context [if ?c then _ else _] => destruct c
           end; cbn; trivial; discriminate.
  - unfold tryFireWeapon.
    repeat match goal with
           | |- context [if ?c then _ else _] => destruct c eqn:?
           end; cbn; trivial.
    match goal with
    | H : (ammoInMag state <=? 0) = false |- _ => apply Z.leb_gt in H; lia
    end.
Qed.

(** C4 (as amended).  [beginReload] is the identity when a reload is
    pending, the magazine is full or the reserve is empty, and otherwise
    only sets [reloadingUntil] to [now + reloadMs]; [tickReload] is the
    identity before the deadline and otherwise moves
    [min (magSize - ammoInMag) ammoReserve] rounds and clears
    [reloadingUntil].  Starting from one round in the magazine and twenty
    in reserve the completed reload fills the magazine, leaving
    [20 - (magSize - 1)] in reserve, for every weapon with
    [magSize - 1 <= 20]; the reserve never becomes negative. *)
Theorem reload_transitions (Hreserve : 0 <= ammoReserve state) :
  (reloadingUntil state <> None \/ magSize spec <= ammoInMag state
     \/ ammoReserve state = 0 ->
     beginReload state now = state)
  /\ (reloadingUntil state = None -> ammoInMag state < magSize spec ->
      ammoReserve state <> 0 ->
      beginReload state now =
        {| weaponId := weaponId state;
           ammoInMag := ammoInMag state;
           ammoReserve := ammoReserve state;
           lastShotAt := lastShotAt state;
           reloadingUntil := Some (now + reloadMs spec) |})
  /\ (reloadingUntil state = None \/ stillReloading ->
      tickReload state now = state)
  /\ (forall until, reloadingUntil state = Some until -> until <= now ->
      let refill := Z.min (magSize spec - ammoInMag state)
                          (ammoReserve state) in
      tickReload state now =
        {| weaponId := weaponId state;
           ammoInMag := ammoInMag state + refill;
           ammoReserve := ammoReserve state - refill;
           lastShotAt := lastShotAt state;
           reloadingUntil := None |})
  /\ (reloadingUntil state = None -> ammoInMag state = 1 ->
      ammoReserve state = 20 -> magSize spec - 1 <= 20 ->
      forall later, now + reloadMs spec <= later ->
      let complete := tickReload (beginReload state now) later in
      ammoInMag complete = magSize spec
      /\ ammoReserve complete = 20 - (magSize spec - 1)
      /\ reloadingUntil complete = None)
  /\ 0 <= ammoReserve (beginReload state now)
  /\ 0 <= ammoReserve (tickReload state now).
Proof.
  unfold stillReloading, spec. split_all.
  - unfold beginReload. intros [Hset | [Hfull | Hnone]].
    + destruct (reloadingUntil state); [reflexivity | contradiction].
    + destruct (reloadingUntil state); trivial.
      apply Z.geb_le in Hfull. now rewrite Hfull.
    + destruct (reloadingUntil state); trivial.
      rewrite Hnone, orb_true_r. reflexivity.
  - intros Hidle Hroom Hsome. unfold beginReload. rewrite Hidle.
    assert (E1 : (ammoInMag state >=? magSize (WEAPONS (weaponId state)))
                 = false) by (rewrite Z.geb_leb; apply Z.leb_gt; lia).
    assert (E2 : (ammoReserve state <=? 0) = false) by (apply Z.leb_gt; lia).
    now rewrite E1, E2.
  - unfold tickReload. intros [Hidle | [deadline [Hdeadline Hlt]]].
    + now rewrite Hidle.
    + rewrite Hdeadline. apply Z.ltb_lt in Hlt. now rewrite Hlt.
  - intros deadline Hdeadline Hdue. unfold tickReload. rewrite Hdeadline.
    apply Z.ltb_ge in Hdue. now rewrite Hdue.
  - intros Hidle Hmag Hres Hsmall later Hlater.
    unfold beginReload, tickReload. rewrite Hidle, Hmag, Hres.
    destruct (weaponId state); cbn in *; try lia;
      (destruct (later <? _) eqn:E; [apply Z.ltb_lt in E; lia |]);
      cbn; auto.
  - unfold beginReload. destruct (reloadingUntil state); trivial.
    destruct (_ || _); trivial.
  - unfold tickReload. destruct (reloadingUntil state); trivial.
    destruct (now <? _); trivial. cbn. lia.
Qed.

End WeaponStateMachine.

(** The fresh pistol fires at [t = 1000]. *)
Lemma tryFireWeapon_outcomes_witness :
  (0 <= ammoInMag (createWeaponState pistol))%Z
  /\ (0 <= ammoInMag (next (tryFireWeapon (createWeaponState pistol) 1000)))%Z.
Proof.
  assert (H : (0 <= ammoInMag (createWeaponState pistol))%Z)
    by (vm_compute; discriminate).
  split; [exact H |].
  exact (proj2 (proj2 (proj2 (proj2 (proj2
    (tryFireWeapon_outcomes (createWeaponState pistol) 1000 H)))))).
Defined.

(** The shotgun of weapons.test.ts: one round loaded, twenty in reserve. *)
Lemma reload_transitions_witness :
  (0 <= ammoReserve (lowAmmo shotgun))%Z
  /\ ammoInMag (tickReload (beginReload (lowAmmo shotgun) 5000) 7701) = 8%Z
  /\ ammoReserve (tickReload (beginReload (lowAmmo shotgun) 5000) 7701) = 13%Z.
Proof.
  assert (H : (0 <= ammoReserve (lowAmmo shotgun))%Z)
    by (vm_compute; discriminate).
  split; [exact H |].
  destruct (reload_transitions (lowAmmo shotgun) 5000 H)
    as (_ & _ & _ & _ & Hfull & _).
  destruct (Hfull eq_refl eq_refl eq_refl) with (later := 7701%Z)
    as (Hmag & Hres & _).
  - vm_compute; discriminate.
  - vm_compute; discriminate.
  - split; [exact Hmag | exact Hres].
Defined.

(** C4, counterexample.  The assault rifle (magazine of 30) with one round
    loaded and twenty in reserve ends its completed reload with 21 rounds
    in the magazine and an empty reserve: the magazine is not full and the
    reserve is not [20 - (magSize - 1)]. *)
Lemma reload_assaultRifle_not_full :
  ammoInMag (tickReload (beginReload (lowAmmo assaultRifle) 5000) 7101) = 21%Z
  /\ ammoReserve (tickReload (beginReload (lowAmmo assaultRifle) 5000) 7101)
     = 0%Z
  /\ ~ (ammoInMag (tickReload (beginReload (lowAmmo assaultRifle) 5000) 7101)
        = magSize (WEAPONS assaultRifle)
        /\ ammoReserve
             (tickReload (beginReload (lowAmmo assaultRifle) 5000) 7101)
           = (20 - (magSize (WEAPONS assaultRifle) - 1))%Z).
Proof.
  repeat split; try reflexivity.
  intros [Hmag _]. vm_compute in Hmag. discriminate.
Qed.

(** ** Arithmetic of the number primitives *)

Section NumberPrimitives.

Local Open Scope Q_scope.

Lemma Qle_bool_false (a b : Q) : Qle_bool a b = false -> b < a.
Proof.
  intros E. apply Qnot_le_lt. intros Hle.
  apply Qle_bool_iff in Hle. congruence.
Qed.

Lemma Qltb_lt (a b : Q) : Qltb a b = true <-> a < b.
Proof.
  unfold Qltb. destruct (Qle_bool b a) eqn:E; cbn.
  - apply Qle_bool_iff in E. split; [discriminate | intros; lra].
  - apply Qle_bool_false in E. tauto.
Qed.

Lemma Qltb_ge (a b : Q) : Qltb a b = false <-> b <= a.
Proof.
  unfold Qltb. destruct (Qle_bool b a) eqn:E; cbn.
  - apply Qle_bool_iff in E. tauto.
  - apply Qle_bool_false in E. split; [discriminate | intros; lra].
Qed.

(** [clamp] stays between its bounds when they are ordered. *)
Lemma clamp_bounds (value lo hi : Q) :
  lo <= hi -> lo <= clamp value lo hi <= hi.
Proof.
  intros Hord. unfold clamp, Qgtb.
  destruct (Qltb value lo) eqn:E1; [lra |].
  destruct (Qltb hi value) eqn:E2; [lra |].
  apply Qltb_ge in E1, E2. lra.
Qed.

(** [Math.round] is within one half of its argument, ties going up. *)
Lemma Math_round_nearest (v : Q) :
  v - (1 # 2) < inject_Z (Math_round v) <= v + (1 # 2).
Proof.
  unfold Math_round.
  pose proof (Qfloor_le (v + (1 # 2))) as Hlo.
  pose proof (Qlt_floor (v + (1 # 2))) as Hhi.
  rewrite inject_Z_plus in Hhi. change (inject_Z 1) with 1 in Hhi. lra.
Qed.

Lemma Math_round_monotone (a b : Q) :
  a <= b -> (Math_round a <= Math_round b)%Z.
Proof.
  intros H. unfold Math_round. apply Qfloor_resp_le. lra.
Qed.


End NumberPrimitives.

(** ** Damage model *)

Section DamageModel.

Local Open Scope Q_scope.



(** [clamp] to the unit interval is the value limited below by 0 and
    above by 1. *)
Lemma clamp_unit (v : Q) : clamp v 0 1 == Qmax 0 (Qmin 1 v).
Proof.
  unfold clamp, Qgtb.
  destruct (Q.min_spec 1 v) as [[Hc1 E1] | [Hc1 E1]];
    destruct (Q.max_spec 0 (Qmin 1 v)) as [[Hc2 E2] | [Hc2 E2]];
    destruct (Qltb v 0) eqn:Elo;
    [apply Qltb_lt in Elo | apply Qltb_ge in Elo
    |apply Qltb_lt in Elo | apply Qltb_ge in Elo
    |apply Qltb_lt in Elo | apply Qltb_ge in Elo
    |apply Qltb_lt in Elo | apply Qltb_ge in Elo];
    try lra;
    (destruct (Qltb 1 v) eqn:Ehi;
     [apply Qltb_lt in Ehi | apply Qltb_ge in Ehi]; lra).
Qed.

(** C1.  [applyDamage] spends
    [min armor (rawDamage * blockScale * 0.65)] armor, where [blockScale]
    is [1 - armorPenetration] limited to the interval from 0 to 1, and
    removes [rawDamage - armorToSpend * 0.55] health, both floored at 0;
    [damageApplied] is the health lost; [isEliminated] holds exactly when
    the new health is 0; full penetration leaves the (non-negative) armor
    as it was; health and armor are never negative afterwards. *)
Theorem applyDamage_contract (state : DamageState)
    (rawDamage armorPenetration : Q) :
  let blockScale := Qmax 0 (Qmin 1 (1 - armorPenetration)) in
  let armorToSpend := Qmin (armor state) (rawDamage * blockScale * 0.65) in
  let result := applyDamage state rawDamage armorPenetration in
  res_armor result == Qmax 0 (armor state - armorToSpend)
  /\ res_health result
     == Qmax 0 (health state - (rawDamage - armorToSpend * 0.55))
  /\ damageApplied result == health state - res_health result
  /\ (isEliminated result = true <-> res_health result == 0)
  /\ (armorPenetration == 1 -> 0 <= armor state ->
      res_armor result == armor state)
  /\ 0 <= res_health result
  /\ 0 <= res_armor result
  /\ clamp (1 - armorPenetration) 0 1 == blockScale
  /\ 0 <= blockScale <= 1
  /\ (0 <= armorPenetration <= 1 -> blockScale == 1 - armorPenetration)
  /\ (1 <= armorPenetration -> blockScale == 0)
  /\ (armorPenetration <= 0 -> blockScale == 1).
Proof.
  cbv zeta.
  pose proof (clamp_unit (1 - armorPenetration)) as Hclamp.
  assert (Hrange : 0 <= Qmax 0 (Qmin 1 (1 - armorPenetration)) <= 1
                   /\ (0 <= armorPenetration <= 1 ->
                       Qmax 0 (Qmin 1 (1 - armorPenetration))
                       == 1 - armorPenetration)
                   /\ (1 <= armorPenetration ->
                       Qmax 0 (Qmin 1 (1 - armorPenetration)) == 0)
                   /\ (armorPenetration <= 0 ->
                       Qmax 0 (Qmin 1 (1 - armorPenetration)) == 1)).
  { destruct (Q.min_spec 1 (1 - armorPenetration)) as [[Hc1 E1] | [Hc1 E1]];
      destruct (Q.max_spec 0 (Qmin 1 (1 - armorPenetration)))
        as [[Hc2 E2] | [Hc2 E2]];
      split_all; intros; lra. }
  destruct Hrange as ((Hs0 & Hs1) & Hmid & Hfull & Hnone).
  assert (Harmor : res_armor (applyDamage state rawDamage armorPenetration)
                   == Qmax 0 (armor state
                              - Qmin (armor state)
                                  (rawDamage
                                   * Qmax 0 (Qmin 1 (1 - armorPenetration))
                                   * 0.65)))
    by (cbn [applyDamage res_armor]; rewrite Hclamp; reflexivity).
  assert (Hhealth : res_health (applyDamage state rawDamage armorPenetration)
                    == Qmax 0 (health state
                               - (rawDamage
                                  - Qmin (armor state)
                                      (rawDamage
                                       * Qmax 0
                                           (Qmin 1 (1 - armorPenetration))
                                       * 0.65) * 0.55)))
    by (cbn [applyDamage res_health]; rewrite Hclamp; reflexivity).
  split_all; trivial.
  - cbn; reflexivity.
  - cbn [applyDamage isEliminated res_health]. unfold Qleb.
    rewrite Qle_bool_iff.
    match goal with
    | |- ?h <= 0 <-> _ =>
        assert (Hfloor : 0 <= h) by apply Q.le_max_l
    end.
    split; intros H; lra.
  - intros Hone Hnonneg. rewrite Harmor.
    assert (Hscale : Qmax 0 (Qmin 1 (1 - armorPenetration)) == 0)
      by (apply Hfull; lra).
    set (blocked := rawDamage * Qmax 0 (Qmin 1 (1 - armorPenetration))
                    * 0.65).
    assert (Hblocked : blocked == 0)
      by (unfold blocked; rewrite Hscale; ring).
    destruct (Q.min_spec (armor state) blocked) as [[Hlt Hmin] | [Hle Hmin]];
      destruct (Q.max_spec 0 (armor state - Qmin (armor state) blocked))
        as [[Hcmp Hmax] | [Hcmp Hmax]]; lra.
  - cbn [applyDamage res_health]. apply Q.le_max_l.
  - cbn [applyDamage res_armor]. apply Q.le_max_l.
Qed.

End DamageModel.

(** A full-penetration hit of 28 on a fresh player. *)
Lemma applyDamage_contract_witness :
  res_armor (applyDamage {| health := 100; armor := 100 |} 28 1) == 100.
Proof.
  destruct (applyDamage_contract {| health := 100; armor := 100 |} 28 1)
    as (_ & _ & _ & _ & Hkept & _).
  apply Hkept.
  - reflexivity.
  - cbn. discriminate.
Defined.

(** ** The string hash, spawn selection and team assignment *)

Section Hashing.

Local Open Scope Z_scope.

Lemma toInt32_range (n : Z) : - 2 ^ 31 <= toInt32 n < 2 ^ 31.
Proof.
  unfold toInt32.
  pose proof (Z.mod_pos_bound n (2 ^ 32) eq_refl) as Hm.
  destruct (n mod 2 ^ 32 >=? 2 ^ 31) eqn:E.
  - apply Z.geb_le in E. lia.
  - rewrite Z.geb_leb in E. apply Z.leb_gt in E. lia.
Qed.

(** [toInt32] only adds a multiple of 2^32. *)
Lemma toInt32_offset (n : Z) : exists k, toInt32 n = n + k * 2 ^ 32.
Proof.
  unfold toInt32. rewrite Z.mod_eq by discriminate.
  destruct (_ >=? _).
  - exists (- (n / 2 ^ 32) - 1). ring.
  - exists (- (n / 2 ^ 32)). ring.
Qed.

Lemma toInt32_shift (n k : Z) : toInt32 (n + k * 2 ^ 32) = toInt32 n.
Proof. unfold toInt32. now rewrite Z_mod_plus_full. Qed.

Lemma toInt32_idempotent (n : Z) : toInt32 (toInt32 n) = toInt32 n.
Proof.
  destruct (toInt32_offset n) as [k Hk]. rewrite Hk at 1.
  apply toInt32_shift.
Qed.

(** One iteration of the loop is one step of the rolling hash. *)
Lemma hash_step (hash c : Z) :
  bitOr32 (shiftLeft32 hash 5 - hash + c) 0 = toInt32 (hash * 31 + c).
Proof.
  unfold bitOr32. change (toInt32 0) with 0.
  rewrite Z.lor_0_r, toInt32_idempotent.
  unfold shiftLeft32. change (Z.land 5 31) with 5.
  rewrite Z.shiftl_mul_pow2 by discriminate.
  destruct (toInt32_offset hash) as [k1 H1]. rewrite H1.
  destruct (toInt32_offset ((hash + k1 * 2 ^ 32) * 2 ^ 5)) as [k2 H2].
  rewrite H2.
  replace ((hash + k1 * 2 ^ 32) * 2 ^ 5 + k2 * 2 ^ 32 - hash + c)
    with (hash * 31 + c + (32 * k1 + k2) * 2 ^ 32) by ring.
  apply toInt32_shift.
Qed.

Lemma hashString_rollingHash (input : JsString) :
  hashString input = rollingHash input.
Proof.
  unfold hashString, rollingHash.
  assert (Hfrom : forall start,
    fold_left (fun hash c => bitOr32 (shiftLeft32 hash 5 - hash + c) 0)
      input start
    = fold_left (fun hash c => toInt32 (hash * 31 + c)) input start).
  { induction input as [| c rest IH]; intros start; cbn [fold_left].
    - reflexivity.
    - rewrite hash_step. apply IH. }
  apply Hfrom.
Qed.

Lemma rollingHash_range (input : JsString) :
  - 2 ^ 31 <= rollingHash input < 2 ^ 31.
Proof.
  unfold rollingHash.
  assert (Hstart : - 2 ^ 31 <= 0 < 2 ^ 31) by (split; [discriminate | reflexivity]).
  revert Hstart. generalize 0 as start.
  induction input as [| c rest IH]; intros start Hstart; cbn [fold_left].
  - exact Hstart.
  - apply IH, toInt32_range.
Qed.

(** Indexing with a remainder of a non-negative number hits the list. *)
Lemma arrayGet_rem {A : Type} (arr : list A) (n : Z) :
  arr <> [] -> 0 <= n ->
  0 <= n mod Z.of_nat (List.length arr) < Z.of_nat (List.length arr)
  /\ Z.rem n (Z.of_nat (List.length arr))
     = n mod Z.of_nat (List.length arr)
  /\ exists a,
       arrayGet arr (n mod Z.of_nat (List.length arr)) = Some a /\ In a arr.
Proof.
  intros Hne Hn. set (index := n mod Z.of_nat (List.length arr)).
  assert (Hlen : 0 < Z.of_nat (List.length arr))
    by (destruct arr; [contradiction | cbn [List.length]; lia]).
  assert (Hidx : 0 <= index < Z.of_nat (List.length arr))
    by (apply Z.mod_pos_bound; exact Hlen).
  split; [exact Hidx | split].
  - apply Z.rem_mod_nonneg; lia.
  - unfold arrayGet.
    assert (E : (index <? 0) = false) by (apply Z.ltb_ge; lia).
    rewrite E.
    destruct (nth_error arr (Z.to_nat index)) as [a |] eqn:Hnth.
    + exists a. split; trivial. eapply nth_error_In; eassumption.
    + apply nth_error_None in Hnth. lia.
Qed.

(** Wrapping at each step or not, the hash is the same modulo 2^32. *)
Lemma rollingHash_polynomial (input : JsString) :
  rollingHash input mod 2 ^ 32 = polynomialHash input mod 2 ^ 32.
Proof.
  unfold rollingHash, polynomialHash.
  assert (Hfrom : forall start start',
    start mod 2 ^ 32 = start' mod 2 ^ 32 ->
    fold_left (fun hash c => toInt32 (hash * 31 + c)) input start mod 2 ^ 32
    = fold_left (fun hash c => hash * 31 + c) input start' mod 2 ^ 32).
  { induction input as [| c rest IH]; intros start start' Hsame;
      cbn [fold_left]; [exact Hsame |].
    apply IH. destruct (toInt32_offset (start * 31 + c)) as [k Hk].
    rewrite Hk, Z_mod_plus_full.
    rewrite (Z.add_mod (start * 31)), (Z.add_mod (start' * 31)) by discriminate.
    rewrite (Z.mul_mod start), (Z.mul_mod start') by discriminate.
    now rewrite Hsame. }
  now apply Hfrom.
Qed.

Lemma uint_digits (d : Decimal.uint) :
  Forall (fun c => 48 <= c <= 57)
    (charCodes (NilEmpty.string_of_uint d)).
Proof.
  induction d; cbn [NilEmpty.string_of_uint]; unfold charCodes in *;
    cbn [list_ascii_of_string List.map]; constructor; trivial;
    cbn; split; discriminate.
Qed.

Lemma uint_value_from (d : Decimal.uint) (acc : positive) :
  fold_left (fun value c => value * 10 + (c - 48))
    (charCodes (NilEmpty.string_of_uint d)) (Z.pos acc)
  = Z.pos (Pos.of_uint_acc d acc).
Proof.
  revert acc.
  induction d; intros acc;
    cbn [NilEmpty.string_of_uint Pos.of_uint_acc]; unfold charCodes in *;
    cbn [list_ascii_of_string List.map fold_left]; trivial;
    rewrite <- IHd; f_equal; cbn [N_of_ascii N_of_digits Z.of_N]; lia.
Qed.

Lemma uint_value (d : Decimal.uint) :
  decimalValue (charCodes (NilEmpty.string_of_uint d))
  = Z.of_N (Pos.of_uint d).
Proof.
  unfold decimalValue.
  induction d; cbn [NilEmpty.string_of_uint Pos.of_uint];
    unfold charCodes in *;
    cbn [list_ascii_of_string List.map fold_left]; trivial;
    match goal with
    | |- fold_left _ _ ?start = _ =>
        let v := eval vm_compute in start in change start with v
    end;
    first [exact IHd | apply uint_value_from].
Qed.

(** The text of a non-negative integer is its decimal numeral, and the
    text of a negative one is a minus sign before that of its opposite. *)
Lemma numberToString_decimal (n : Z) :
  (0 <= n -> decimalNumeral n (numberToString n))
  /\ (n < 0 -> numberToString n = 45 :: numberToString (- n)).
Proof.
  destruct n as [| p | p].
  - split; [| lia]. intros _. unfold decimalNumeral.
    split_all; [discriminate | repeat constructor; discriminate
               | reflexivity | reflexivity].
  - split; [| lia]. intros _. unfold numberToString.
    cbn [Z.to_int NilZero.string_of_int].
    pose proof (Unsigned.to_uint_nonnil p) as Hnil.
    pose proof (Unsigned.to_uint_nonzero p) as Hzero.
    pose proof (DecimalPos.Unsigned.of_to p) as Hvalue.
    pose proof (DecimalPos.Unsigned.to_of (Pos.to_uint p)) as Hnorm.
    rewrite Hvalue in Hnorm. cbn [N.to_uint] in Hnorm.
    set (d := Pos.to_uint p) in *.
    assert (Htext : NilZero.string_of_uint d = NilEmpty.string_of_uint d)
      by (destruct d; [contradiction | reflexivity ..]).
    rewrite Htext. unfold decimalNumeral. split_all.
    + destruct d; [contradiction | discriminate ..].
    + apply uint_digits.
    + assert (Hhead : forall u, d <> Decimal.D0 u).
      { intros u Hd. rewrite Hd in Hnorm. unfold Decimal.unorm in Hnorm.
        cbn [Decimal.nzhead] in Hnorm.
        assert (Hnz : forall v w, Decimal.nzhead v <> Decimal.D0 w)
          by (induction v; intros w; cbn [Decimal.nzhead];
              trivial; discriminate).
        destruct (Decimal.nzhead u) eqn:Eu;
          try discriminate Hnorm.
        - injection Hnorm as ->. apply Hzero. exact Hd.
        - exact (Hnz u _ Eu). }
      destruct d; try contradiction; cbn; try discriminate.
      intros _. exfalso. exact (Hhead d eq_refl).
    + rewrite uint_value, Hvalue. reflexivity.
  - split; [lia |]. intros _. reflexivity.
Qed.

(** C6.  [pickSpawnPoint] is a function of its arguments; on a non-empty
    list it returns [spawnPoints[abs h mod length]], an element of the
    list, where [h] is the 32-bit rolling hash (times 31 plus the
    character code at each character) of ["matchCode:playerName:wave"];
    this holds whatever the wave.  The seed joins the match code, the
    player name and the decimal numeral of the wave with colons
    (character code 58); [h] is a signed 32-bit integer, the one congruent
    modulo 2^32 to the polynomial computed without wrap-around. *)
Theorem pickSpawnPoint_contract (matchCode playerName : JsString)
    (spawnPoints : list SpawnPoint) (wave : Z)
    (Hnonempty : spawnPoints <> []) :
  let seed :=
    (matchCode ++ [58] ++ playerName ++ [58] ++ numberToString wave)%list in
  let h := rollingHash seed in
  let index := Z.abs h mod Z.of_nat (List.length spawnPoints) in
  (forall matchCode' playerName' spawnPoints' wave',
      matchCode' = matchCode -> playerName' = playerName ->
      spawnPoints' = spawnPoints -> wave' = wave ->
      pickSpawnPoint matchCode' playerName' spawnPoints' wave' =
      pickSpawnPoint matchCode playerName spawnPoints wave)
  /\ 0 <= index < Z.of_nat (List.length spawnPoints)
  /\ (exists spawn,
        pickSpawnPoint matchCode playerName spawnPoints wave = Some spawn
        /\ nth_error spawnPoints (Z.to_nat index) = Some spawn
        /\ In spawn spawnPoints)
  /\ (forall otherWave, exists spawn,
        pickSpawnPoint matchCode playerName spawnPoints otherWave
          = Some spawn
        /\ In spawn spawnPoints)
  /\ (0 <= wave -> decimalNumeral wave (numberToString wave))
  /\ (wave < 0 -> numberToString wave = 45 :: numberToString (- wave))
  /\ hashString seed = h
  /\ - 2 ^ 31 <= h < 2 ^ 31
  /\ h mod 2 ^ 32 = polynomialHash seed mod 2 ^ 32.
Proof.
  assert (Hcolon : colon = [58]) by reflexivity.
  assert (Hpick : forall w, exists spawn,
    pickSpawnPoint matchCode playerName spawnPoints w = Some spawn
    /\ nth_error spawnPoints
         (Z.to_nat
            (Z.abs (rollingHash
                      (matchCode ++ [58] ++ playerName ++ [58]
                       ++ numberToString w)%list)
             mod Z.of_nat (List.length spawnPoints))) = Some spawn
    /\ In spawn spawnPoints).
  { intros w. unfold pickSpawnPoint.
    assert (E : (Z.of_nat (List.length spawnPoints) =? 0) = false).
    { apply Z.eqb_neq. destruct spawnPoints; [contradiction |].
      cbn [List.length]. lia. }
    rewrite E, hashString_rollingHash, Hcolon.
    set (seed := (matchCode ++ _)%list).
    destruct (arrayGet_rem spawnPoints (Z.abs (rollingHash seed))
                Hnonempty (Z.abs_nonneg _))
      as (Hidx & Hrem & spawn & Hget & Hin).
    rewrite Hrem. exists spawn. split_all; trivial.
    unfold arrayGet in Hget.
    destruct (_ <? 0) eqn:Hneg; [discriminate | exact Hget]. }
  pose proof (numberToString_decimal wave) as [Hnumeral Hminus].
  cbv zeta. split_all; trivial.
  - intros; subst; reflexivity.
  - apply Z.mod_pos_bound. destruct spawnPoints; [contradiction |].
    cbn [List.length]. lia.
  - apply Z.mod_pos_bound. destruct spawnPoints; [contradiction |].
    cbn [List.length]. lia.
  - intros otherWave. destruct (Hpick otherWave) as (spawn & Hsome & _ & Hin).
    exists spawn. now split.
  - apply hashString_rollingHash.
  - apply rollingHash_range.
  - apply rollingHash_range.
  - apply rollingHash_polynomial.
Qed.


End Hashing.

(** Match "DUST-SIM", player "Operator", wave 0, three spawn points. *)
Lemma pickSpawnPoint_contract_witness :
  sampleSpawns <> []
  /\ exists spawn,
       pickSpawnPoint (charCodes "DUST-SIM") (charCodes "Operator")
         sampleSpawns 0 = Some spawn
       /\ In spawn sampleSpawns.
Proof.
  assert (Hne : sampleSpawns <> []) by discriminate.
  split; [exact Hne |].
  destruct (pickSpawnPoint_contract (charCodes "DUST-SIM")
              (charCodes "Operator") sampleSpawns 0%Z Hne)
    as (_ & _ & (spawn & Hsome & _ & Hin) & _).
  exists spawn. split; [exact Hsome | exact Hin].
Defined.


Example hashString_abc : hashString (charCodes "abc") = 96354%Z.
Proof. reflexivity. Qed.

Example hashString_seed :
  hashString (charCodes "DUST-SIM:Operator:0") = (-1647547880)%Z.
Proof. reflexivity. Qed.

Example pickSpawnPoint_first_wave :
  pickSpawnPoint (charCodes "DUST-SIM") (charCodes "Operator") sampleSpawns 0
  = Some {| x := 3; y := 0; z := 3 |}.
Proof. reflexivity. Qed.

Example applyDamage_pistol_hit :
  let result := applyDamage {| health := 100; armor := 100 |} 28 0.57 in
  res_armor result == 92.174 /\ damageApplied result == 23.6957
  /\ isEliminated result = false.
Proof. vm_compute. auto. Qed.

Example runner_stops_at_wall :
  let result :=
    stepPlayerMovement cos_yaw0 sin_yaw0 hypot_axis runner forwardKey
      (1 # 30) [wall] arena in
  z (position result) == -0.18 /\ z (velocity result) == 0.
Proof. vm_compute. split; reflexivity. Qed.

(** ** Kinematics and collision resolution *)

Section Collisions.

Local Open Scope Q_scope.

Lemma Qmin4_cases (a b c d : Q) :
  let m := Qmin a (Qmin b (Qmin c d)) in
  m <= a /\ m <= b /\ m <= c /\ m <= d
  /\ (m == a \/ m == b \/ m == c \/ m == d).
Proof.
  cbv zeta.
  destruct (Q.min_spec c d) as [[H1 E1] | [H1 E1]];
    destruct (Q.min_spec b (Qmin c d)) as [[H2 E2] | [H2 E2]];
    destruct (Q.min_spec a (Qmin b (Qmin c d))) as [[H3 E3] | [H3 E3]];
    split_all; try lra;
    first [ left; lra | right; left; lra
          | right; right; left; lra | right; right; right; lra ].
Qed.

Variable playerHeight : Q.
Variable obstacle : Aabb.

(** What one loop iteration does to a position [p] and velocity [v] of a
    player whose feet are at [y p]: nothing when [p] is not strictly
    inside the inflated obstacle, a push-out otherwise. *)
Lemma resolveObstacle_outcome (p v : Vec3) :
  let r := resolveObstacle (y p) (y p + playerHeight) (p, v) obstacle in
  (~ insideInflated p playerHeight obstacle -> r = (p, v))
  /\ (insideInflated p playerHeight obstacle ->
      pushedOut p v obstacle (fst r) (snd r)).
Proof.
  cbv zeta. unfold resolveObstacle, insideInflated, Qgtb, Qleb, Qgeb.
  destruct (Qltb (y p) (y (max obstacle))) eqn:Ebelow;
    [apply Qltb_lt in Ebelow | apply Qltb_ge in Ebelow];
    cbn [andb negb]; [| split; [reflexivity | intros; lra]].
  destruct (Qltb (y (min obstacle)) (y p + playerHeight)) eqn:Eabove;
    [apply Qltb_lt in Eabove | apply Qltb_ge in Eabove];
    cbn [andb negb]; [| split; [reflexivity | intros; lra]].
  destruct (Qle_bool (x p) (x (min obstacle) - PLAYER_RADIUS)) eqn:EL;
    [apply Qle_bool_iff in EL; cbn [orb]; split; [reflexivity | intros; lra]
    | apply Qle_bool_false in EL; cbn [orb]].
  destruct (Qle_bool (x (max obstacle) + PLAYER_RADIUS) (x p)) eqn:ER;
    [apply Qle_bool_iff in ER; cbn [orb]; split; [reflexivity | intros; lra]
    | apply Qle_bool_false in ER; cbn [orb]].
  destruct (Qle_bool (z p) (z (min obstacle) - PLAYER_RADIUS)) eqn:EB;
    [apply Qle_bool_iff in EB; cbn [orb]; split; [reflexivity | intros; lra]
    | apply Qle_bool_false in EB; cbn [orb]].
  destruct (Qle_bool (z (max obstacle) + PLAYER_RADIUS) (z p)) eqn:EF;
    [apply Qle_bool_iff in EF; cbn [orb]; split; [reflexivity | intros; lra]
    | apply Qle_bool_false in EF; cbn [orb]].
  split; [intros Hout; exfalso; apply Hout; split_all; assumption |].
  intros _. unfold pushedOut. cbv zeta.
  set (dL := Qabs (x p - (x (min obstacle) - PLAYER_RADIUS))).
  set (dR := Qabs (x (max obstacle) + PLAYER_RADIUS - x p)).
  set (dB := Qabs (z p - (z (min obstacle) - PLAYER_RADIUS))).
  set (dF := Qabs (z (max obstacle) + PLAYER_RADIUS - z p)).
  assert (HL : dL == x p - (x (min obstacle) - PLAYER_RADIUS))
    by (apply Qabs_pos; lra).
  assert (HR : dR == x (max obstacle) + PLAYER_RADIUS - x p)
    by (apply Qabs_pos; lra).
  assert (HB : dB == z p - (z (min obstacle) - PLAYER_RADIUS))
    by (apply Qabs_pos; lra).
  assert (HF : dF == z (max obstacle) + PLAYER_RADIUS - z p)
    by (apply Qabs_pos; lra).
  destruct (Qmin4_cases dL dR dB dF) as (mL & mR & mB & mF & Hwhich).
  destruct (Qeq_bool _ dL) eqn:E1;
    [apply Qeq_bool_iff in E1 | apply Qeq_bool_neq in E1].
  { cbn [fst snd x y z]. split_all; try reflexivity.
    left. split_all; try reflexivity; lra. }
  destruct (Qeq_bool _ dR) eqn:E2;
    [apply Qeq_bool_iff in E2 | apply Qeq_bool_neq in E2].
  { cbn [fst snd x y z]. split_all; try reflexivity.
    right; left. split_all; try reflexivity; lra. }
  destruct (Qeq_bool _ dB) eqn:E3;
    [apply Qeq_bool_iff in E3 | apply Qeq_bool_neq in E3].
  { cbn [fst snd x y z]. split_all; try reflexivity.
    right; right; left. split_all; try reflexivity; lra. }
  destruct Hwhich as [E | [E | [E | E]]]; try contradiction.
  cbn [fst snd x y z]. split_all; try reflexivity.
  right; right; right. split_all; try reflexivity; lra.
Qed.

(** A pushed-out position is on a face of the inflated box, hence not
    strictly inside it. *)
Lemma pushedOut_not_inside (p v p' v' : Vec3) :
  pushedOut p v obstacle p' v' ->
  ~ insideInflated p' playerHeight obstacle.
Proof.
  unfold pushedOut, insideInflated. cbv zeta.
  intros (_ & _ & [H | [H | [H | H]]]) (_ & _ & Hx1 & Hx2 & Hz1 & Hz2);
    destruct H as (Hface & _); rewrite Hface in *; lra.
Qed.

End Collisions.

Section Kinematics.

Local Open Scope Q_scope.

Variable Math_cos Math_sin : Q -> Q.
Variable Math_hypot : Q -> Q -> Q.

Variable state : PlayerBodyState.
Variable input : InputState.
Variable dt : Q.
Variable bounds : ArenaBounds.

Let step := stepPlayerMovement Math_cos Math_sin Math_hypot state input dt.

(** The height probed for collisions this tick. *)
Let playerHeight : Q :=
  if crouch input then PLAYER_HEIGHT_CROUCHING else PLAYER_HEIGHT_STANDING.

(** The step over any obstacle set is the step over no obstacles (the
    integrated state) followed by the collision resolver. *)
Lemma stepPlayerMovement_factors (obstacles : list Aabb) :
  let free := step [] bounds in
  let collisionResult :=
    resolveHorizontalCollisions (position free) (velocity free)
      playerHeight obstacles in
  step obstacles bounds =
    {| position := fst collisionResult;
       velocity := snd collisionResult;
       yaw := yaw free;
       pitch := pitch free;
       grounded := grounded free;
       crouching := crouching free |}.
Proof.
  unfold step, playerHeight, stepPlayerMovement.
  destruct (Qgtb _ 0);
    destruct (grounded state && jump input && negb (crouch input));
    destruct (Qltb _ (floorY bounds)); reflexivity.
Qed.

(** The resolver never touches the vertical components. *)
Lemma resolveHorizontalCollisions_vertical (obstacles : list Aabb)
    (p v : Vec3) (height : Q) :
  y (fst (resolveHorizontalCollisions p v height obstacles)) = y p
  /\ y (snd (resolveHorizontalCollisions p v height obstacles)) = y v.
Proof.
  unfold resolveHorizontalCollisions.
  generalize (y p + height) as top.
  assert (Hgen : forall bottom top acc,
    y (fst (fold_left (resolveObstacle bottom top) obstacles acc))
      = y (fst acc)
    /\ y (snd (fold_left (resolveObstacle bottom top) obstacles acc))
      = y (snd acc)).
  { induction obstacles as [| o rest IH]; intros bottom top acc;
      cbn [fold_left]; [split; reflexivity |].
    destruct (IH bottom top (resolveObstacle bottom top acc o)) as [Hp Hv].
    rewrite Hp, Hv. destruct acc as [q w]. unfold resolveObstacle.
    repeat match goal with
           | |- context [if ?c then _ else _] => destruct c
           end; split; reflexivity. }
  intros top. apply (Hgen (y p) top (p, v)).
Qed.

(** Obstacles that do not contain the position leave it alone. *)
Lemma resolveHorizontalCollisions_clear (obstacles : list Aabb)
    (p v : Vec3) (height : Q) :
  (forall o, In o obstacles -> ~ insideInflated p height o) ->
  resolveHorizontalCollisions p v height obstacles = (p, v).
Proof.
  unfold resolveHorizontalCollisions.
  induction obstacles as [| o rest IH]; intros Hclear; cbn [fold_left].
  - reflexivity.
  - destruct (resolveObstacle_outcome height o p v) as [Hout _].
    cbv zeta in Hout. rewrite Hout by (apply Hclear; now left).
    apply IH. intros o' Hin. apply Hclear. now right.
Qed.

(** C5.  With a single obstacle the returned position is never strictly
    inside the obstacle's footprint inflated by the player radius while
    the player's vertical span overlaps the obstacle; when the integrated
    position is not inside, the step returns the integrated state, and
    when it is, the returned position sits on the nearest inflated face,
    moved along that axis only, with the velocity component into the box
    zeroed. *)
Theorem stepPlayerMovement_containment (obstacle : Aabb) :
  let free := step [] bounds in
  let result := step [obstacle] bounds in
  ~ insideInflated (position result) playerHeight obstacle
  /\ (~ insideInflated (position free) playerHeight obstacle ->
      result = free)
  /\ (insideInflated (position free) playerHeight obstacle ->
      pushedOut (position free) (velocity free) obstacle
        (position result) (velocity result)).
Proof.
  cbv zeta.
  rewrite (stepPlayerMovement_factors [obstacle]). cbv zeta.
  set (free := step [] bounds).
  unfold resolveHorizontalCollisions. cbn [fold_left position velocity].
  destruct (resolveObstacle_outcome playerHeight obstacle
              (position free) (velocity free)) as [Hout Hin].
  cbv zeta in Hout, Hin.
  assert (Hpushed : insideInflated (position free) playerHeight obstacle ->
                    ~ insideInflated
                        (fst (resolveObstacle (y (position free))
                                (y (position free) + playerHeight)
                                (position free, velocity free) obstacle))
                        playerHeight obstacle).
  { intros Hins. eapply pushedOut_not_inside. apply Hin, Hins. }
  split_all.
  - intros Hafter.
    assert (Hdec : insideInflated (position free) playerHeight obstacle
                   \/ ~ insideInflated (position free) playerHeight
                          obstacle).
    { unfold insideInflated.
      destruct (Qlt_le_dec (y (position free)) (y (max obstacle)));
        destruct (Qlt_le_dec (y (min obstacle))
                    (y (position free) + playerHeight));
        destruct (Qlt_le_dec (x (min obstacle) - PLAYER_RADIUS)
                    (x (position free)));
        destruct (Qlt_le_dec (x (position free))
                    (x (max obstacle) + PLAYER_RADIUS));
        destruct (Qlt_le_dec (z (min obstacle) - PLAYER_RADIUS)
                    (z (position free)));
        destruct (Qlt_le_dec (z (position free))
                    (z (max obstacle) + PLAYER_RADIUS));
        first [ left; split_all; assumption
              | right; intros (? & ? & ? & ? & ? & ?); lra ]. }
    destruct Hdec as [Hins | Hnot].
    + exact (Hpushed Hins Hafter).
    + rewrite (Hout Hnot) in Hafter. exact (Hnot Hafter).
  - intros Hnot. rewrite (Hout Hnot). cbn [fst snd].
    destruct free; reflexivity.
  - exact Hin.
Qed.

Lemma clamp_limitedTo (v lo hi : Q) : limitedTo v lo hi (clamp v lo hi).
Proof.
  unfold limitedTo, clamp, Qgtb.
  destruct (Qltb v lo) eqn:E1; [apply Qltb_lt in E1 | apply Qltb_ge in E1].
  - split_all; trivial; intros; lra.
  - destruct (Qltb hi v) eqn:E2;
      [apply Qltb_lt in E2 | apply Qltb_ge in E2];
      split_all; trivial; intros; lra.
Qed.

(** One obstacle keeps a horizontal coordinate or puts it on one of its
    inflated faces. *)
Lemma resolveObstacle_faces (bottom top : Q) (p v : Vec3) (o : Aabb) :
  keptOrOnFace x [o] (x p) (x (fst (resolveObstacle bottom top (p, v) o)))
  /\ keptOrOnFace z [o] (z p) (z (fst (resolveObstacle bottom top (p, v) o))).
Proof.
  unfold keptOrOnFace, resolveObstacle.
  repeat match goal with
         | |- context [if ?c then _ else _] => destruct c
         end; cbn [fst x z];
    split;
    first [ now left
          | right; exists o; split; [now left | now left]
          | right; exists o; split; [now left | now right] ].
Qed.

Lemma resolveHorizontalCollisions_faces (obstacles : list Aabb)
    (p v : Vec3) (height : Q) :
  keptOrOnFace x obstacles (x p)
    (x (fst (resolveHorizontalCollisions p v height obstacles)))
  /\ keptOrOnFace z obstacles (z p)
       (z (fst (resolveHorizontalCollisions p v height obstacles))).
Proof.
  unfold resolveHorizontalCollisions.
  generalize (y p) as bottom, (y p + height) as top. intros bottom top.
  revert p v. induction obstacles as [| o rest IH]; intros p v;
    cbn [fold_left fst]; [split; now left |].
  destruct (resolveObstacle bottom top (p, v) o) as [p' v'] eqn:E.
  pose proof (resolveObstacle_faces bottom top p v o) as [Hx Hz].
  rewrite E in Hx, Hz. cbn [fst] in Hx, Hz.
  destruct (IH p' v') as [IHx IHz].
  unfold keptOrOnFace in *. split.
  - destruct IHx as [-> | (o' & Hin & Hface)].
    + destruct Hx as [-> | (o' & [<- | []] & Hface)]; [now left |].
      right. exists o. split; [now left | exact Hface].
    + right. exists o'. split; [now right | exact Hface].
  - destruct IHz as [-> | (o' & Hin & Hface)].
    + destruct Hz as [-> | (o' & [<- | []] & Hface)]; [now left |].
      right. exists o. split; [now left | exact Hface].
    + right. exists o'. split; [now right | exact Hface].
Qed.

(** C8 (as amended).  The vertical velocity becomes the jump velocity,
    with grounded cleared, when the player is grounded, jumps and does not
    crouch, and otherwise loses [GRAVITY * dt]; a new y below the floor is
    snapped to the floor with the vertical velocity zeroed and grounded
    set: the returned y, vertical velocity and grounded flag are these for
    every obstacle set.  The integrated position (the step over no
    obstacles) has for x and z the old coordinate plus the new velocity
    times [dt], limited to the arena bounds inset by the player radius.
    The returned position and velocity are the obstacle push-out of the
    integrated ones: the integrated state itself when no obstacle contains
    the integrated position, and otherwise each of x and z is the
    integrated coordinate or lies on an inflated face of one of the
    obstacles. *)
Theorem stepPlayerMovement_vertical_and_bounds (obstacles : list Aabb) :
  let free := step [] bounds in
  let result := step obstacles bounds in
  let jumping := grounded state && jump input && negb (crouch input) in
  let velocityY :=
    if jumping then JUMP_VELOCITY else y (velocity state) - GRAVITY * dt in
  let belowFloor :=
    Qltb (y (position state) + velocityY * dt) (floorY bounds) in
  y (velocity result) = (if belowFloor then 0 else velocityY)
  /\ grounded result
     = (if belowFloor then true
        else if jumping then false else grounded state)
  /\ y (position result)
     = (if belowFloor then floorY bounds
        else y (position state) + velocityY * dt)
  /\ x (position free)
     = clamp (x (position state) + x (velocity free) * dt)
             (minX bounds + PLAYER_RADIUS) (maxX bounds - PLAYER_RADIUS)
  /\ z (position free)
     = clamp (z (position state) + z (velocity free) * dt)
             (minZ bounds + PLAYER_RADIUS) (maxZ bounds - PLAYER_RADIUS)
  /\ (position result, velocity result)
     = resolveHorizontalCollisions (position free) (velocity free)
         playerHeight obstacles
  /\ ((forall o, In o obstacles ->
         ~ insideInflated (position free) playerHeight o) ->
      result = free)
  /\ limitedTo (x (position state) + x (velocity free) * dt)
       (minX bounds + PLAYER_RADIUS) (maxX bounds - PLAYER_RADIUS)
       (x (position free))
  /\ limitedTo (z (position state) + z (velocity free) * dt)
       (minZ bounds + PLAYER_RADIUS) (maxZ bounds - PLAYER_RADIUS)
       (z (position free))
  /\ keptOrOnFace x obstacles (x (position free)) (x (position result))
  /\ keptOrOnFace z obstacles (z (position free)) (z (position result)).
Proof.
  cbv zeta.
  assert (Hfree :
    let jumping := grounded state && jump input && negb (crouch input) in
    let velocityY :=
      if jumping then JUMP_VELOCITY
      else y (velocity state) - GRAVITY * dt in
    let belowFloor :=
      Qltb (y (position state) + velocityY * dt) (floorY bounds) in
    y (velocity (step [] bounds)) = (if belowFloor then 0 else velocityY)
    /\ grounded (step [] bounds)
       = (if belowFloor then true
          else if jumping then false else grounded state)
    /\ y (position (step [] bounds))
       = (if belowFloor then floorY bounds
          else y (position state) + velocityY * dt)
    /\ x (position (step [] bounds))
       = clamp (x (position state) + x (velocity (step [] bounds)) * dt)
               (minX bounds + PLAYER_RADIUS) (maxX bounds - PLAYER_RADIUS)
    /\ z (position (step [] bounds))
       = clamp (z (position state) + z (velocity (step [] bounds)) * dt)
               (minZ bounds + PLAYER_RADIUS) (maxZ bounds - PLAYER_RADIUS)).
  { cbv zeta. unfold step, stepPlayerMovement, resolveHorizontalCollisions.
    cbn [fold_left].
    destruct (Qgtb _ 0);
      destruct (grounded state && jump input && negb (crouch input));
      cbn [x y z];
      destruct (Qltb _ (floorY bounds));
      cbn [fst snd position velocity grounded x y z];
      split_all; reflexivity. }
  cbv zeta in Hfree.
  destruct Hfree as (Hvy & Hgr & Hy & Hx & Hz).
  rewrite (stepPlayerMovement_factors obstacles). cbv zeta.
  cbn [position velocity grounded].
  destruct (resolveHorizontalCollisions_vertical obstacles
              (position (step [] bounds)) (velocity (step [] bounds))
              playerHeight) as [Hpy Hpv].
  destruct (resolveHorizontalCollisions_faces obstacles
              (position (step [] bounds)) (velocity (step [] bounds))
              playerHeight) as [Hfx Hfz].
  split_all.
  - rewrite Hpv. exact Hvy.
  - exact Hgr.
  - rewrite Hpy. exact Hy.
  - exact Hx.
  - exact Hz.
  - symmetry. apply surjective_pairing.
  - intros Hclear. rewrite resolveHorizontalCollisions_clear by exact Hclear.
    cbn [fst snd]. destruct (step [] bounds); reflexivity.
  - rewrite Hx. apply clamp_limitedTo.
  - rewrite Hz. apply clamp_limitedTo.
  - exact Hfx.
  - exact Hfz.
Qed.

(** C10.  The step returns the yaw and pitch it was given; the other
    four fields (position, velocity, grounded, crouching) are the only
    ones it can change. *)
Theorem stepPlayerMovement_keeps_view (obstacles : list Aabb) :
  yaw (step obstacles bounds) = yaw state
  /\ pitch (step obstacles bounds) = pitch state.
Proof.
  unfold step, stepPlayerMovement.
  destruct (Qgtb _ 0);
    destruct (grounded state && jump input && negb (crouch input));
    destruct (Qltb _ (floorY bounds)); split; reflexivity.
Qed.

End Kinematics.

(** The runner of the sample scene is pushed back onto the wall's front
    face. *)
Lemma stepPlayerMovement_containment_witness :
  insideInflated
    (position (stepPlayerMovement cos_yaw0 sin_yaw0 hypot_axis runner
                 forwardKey (1 # 30) [] arena))
    PLAYER_HEIGHT_STANDING wall
  /\ pushedOut
       (position (stepPlayerMovement cos_yaw0 sin_yaw0 hypot_axis runner
                    forwardKey (1 # 30) [] arena))
       (velocity (stepPlayerMovement cos_yaw0 sin_yaw0 hypot_axis runner
                    forwardKey (1 # 30) [] arena))
       wall
       (position (stepPlayerMovement cos_yaw0 sin_yaw0 hypot_axis runner
                    forwardKey (1 # 30) [wall] arena))
       (velocity (stepPlayerMovement cos_yaw0 sin_yaw0 hypot_axis runner
                    forwardKey (1 # 30) [wall] arena)).
Proof.
  assert (Hinside :
    insideInflated
      (position (stepPlayerMovement cos_yaw0 sin_yaw0 hypot_axis runner
                   forwardKey (1 # 30) [] arena))
      PLAYER_HEIGHT_STANDING wall)
    by (vm_compute; repeat split).
  split; [exact Hinside |].
  exact (proj2 (proj2
    (stepPlayerMovement_containment cos_yaw0 sin_yaw0 hypot_axis runner
       forwardKey (1 # 30) arena wall)) Hinside).
Defined.

(** The crate stands clear of the runner, whose step is then the
    integrated state. *)
Lemma stepPlayerMovement_vertical_and_bounds_witness :
  stepPlayerMovement cos_yaw0 sin_yaw0 hypot_axis runner forwardKey (1 # 30)
    [cornerCrate] arena
  = stepPlayerMovement cos_yaw0 sin_yaw0 hypot_axis runner forwardKey
      (1 # 30) [] arena.
Proof.
  destruct (stepPlayerMovement_vertical_and_bounds cos_yaw0 sin_yaw0
              hypot_axis runner forwardKey (1 # 30) arena [cornerCrate])
    as (_ & _ & _ & _ & _ & _ & Hclear & _).
  apply Hclear.
  intros o [<- | []]. vm_compute.
  intros (_ & _ & Hx & _). discriminate Hx.
Defined.

(** C8, counterexample.  The runner of the sample scene walks into the
    wall: the integrated z is about -0.1867, but the step returns z on the
    wall's inflated front face, -0.18, with the velocity along z zeroed;
    the returned z is not the old z plus velocity times dt, whether the
    velocity is the integrated one (-5.6) or the returned one (0). *)
Lemma stepPlayerMovement_pushout_moves_position :
  z (position (stepPlayerMovement cos_yaw0 sin_yaw0 hypot_axis runner
                 forwardKey (1 # 30) [wall] arena)) == -0.18
  /\ ~ z (position (stepPlayerMovement cos_yaw0 sin_yaw0 hypot_axis runner
                      forwardKey (1 # 30) [wall] arena))
       == clamp (z (position runner)
                 + z (velocity (stepPlayerMovement cos_yaw0 sin_yaw0
                                  hypot_axis runner forwardKey (1 # 30) []
                                  arena)) * (1 # 30))
            (minZ arena + PLAYER_RADIUS) (maxZ arena - PLAYER_RADIUS)
  /\ ~ z (position (stepPlayerMovement cos_yaw0 sin_yaw0 hypot_axis runner
                      forwardKey (1 # 30) [wall] arena))
       == clamp (z (position runner)
                 + z (velocity (stepPlayerMovement cos_yaw0 sin_yaw0
                                  hypot_axis runner forwardKey (1 # 30)
                                  [wall] arena)) * (1 # 30))
            (minZ arena + PLAYER_RADIUS) (maxZ arena - PLAYER_RADIUS).
Proof.
  split_all.
  - vm_compute. reflexivity.
  - vm_compute. discriminate.
  - vm_compute. discriminate.
Qed.

(** The push-out comes after the clamp to the arena, so it can leave the
    player beyond the inset bounds, and beyond the arena itself: the
    bystander beside the crate on the arena's east edge ends at x = 20.24,
    where the arena ends at 20. *)
Example pushout_can_leave_arena :
  x (position (stepPlayerMovement cos_yaw0 sin_yaw0 hypot_axis bystander
                 noKeys (1 # 30) [edgeCrate] arena)) == 20.24
  /\ maxX arena < x (position (stepPlayerMovement cos_yaw0 sin_yaw0
                                 hypot_axis bystander noKeys (1 # 30)
                                 [edgeCrate] arena)).
Proof. vm_compute. split; reflexivity. Qed.

(** ** Spawn safety *)

Section SpawnSafety.

Local Open Scope Q_scope.

Variable obstacles : list Aabb.
Variable spawnPoints : list SpawnPoint.

(** The loop finds an obstacle exactly when one overlaps the box around
    the spawn point. *)
Lemma isSpawnSafe_from_false (rest : list Aabb) (spawn : SpawnPoint) :
  isSpawnSafe_from rest spawn = false
  <-> exists o, In o rest /\ boxOverlaps spawn o.
Proof.
  induction rest as [| o rest' IH]; cbn [isSpawnSafe_from].
  - split; [discriminate | intros (o & [] & _)].
  - assert (Htest :
      (Qltb (y spawn) (y (max o))
         && Qgtb (y spawn + PLAYER_HEIGHT_STANDING) (y (min o))
         && negb (Qleb (x spawn + 0.65) (x (min o))
                  || Qgeb (x spawn - 0.65) (x (max o))
                  || Qleb (z spawn + 0.65) (z (min o))
                  || Qgeb (z spawn - 0.65) (z (max o)))) = true
      <-> boxOverlaps spawn o).
    { unfold boxOverlaps, Qgtb, Qleb, Qgeb.
      rewrite !andb_true_iff, negb_true_iff, !orb_false_iff, !Qltb_lt.
      split.
      - intros ((H1 & H2) & ((H3 & H4) & H5) & H6).
        apply Qle_bool_false in H3, H4, H5, H6. tauto.
      - intros (H1 & H2 & H3 & H4 & H5 & H6).
        assert (Hno : forall a b, b < a -> Qle_bool a b = false).
        { intros a b Hlt. destruct (Qle_bool a b) eqn:E; trivial.
          apply Qle_bool_iff in E. lra. }
        repeat split; trivial; now apply Hno. }
    destruct (Qltb (y spawn) (y (max o))
              && Qgtb (y spawn + PLAYER_HEIGHT_STANDING) (y (min o)))
      eqn:Evert; cbn [negb].
    + destruct (Qleb (x spawn + 0.65) (x (min o))
                || Qgeb (x spawn - 0.65) (x (max o))
                || Qleb (z spawn + 0.65) (z (min o))
                || Qgeb (z spawn - 0.65) (z (max o))) eqn:Eout.
      * rewrite IH. cbn [andb negb] in Htest. split.
        -- intros (o' & Hin & Hov). exists o'. split; [now right | trivial].
        -- intros (o' & [-> | Hin] & Hov).
           ++ apply Htest in Hov. discriminate.
           ++ exists o'. now split.
      * split; trivial. intros _. exists o. split; [now left |].
        now apply Htest.
    + rewrite IH. cbn [andb] in Htest. split.
      * intros (o' & Hin & Hov). exists o'. split; [now right | trivial].
      * intros (o' & [-> | Hin] & Hov).
        -- apply Htest in Hov. discriminate.
        -- exists o'. now split.
Qed.

(** A disk of radius 0.65 lies inside the square of half-width 0.65. *)
Lemma disk_in_square (a b : Q) :
  a * a + b * b < 0.65 * 0.65 ->
  - 0.65 < a /\ a < 0.65 /\ - 0.65 < b /\ b < 0.65.
Proof. intros Hr. split_all; nra. Qed.

(** A cylinder that overlaps an obstacle has its bounding box overlap
    it too. *)
Lemma cylinderOverlaps_boxOverlaps (spawn : SpawnPoint) (o : Aabb) :
  cylinderOverlaps spawn o -> boxOverlaps spawn o.
Proof.
  unfold cylinderOverlaps, boxOverlaps.
  intros (px & py & pz & Hx1 & Hx2 & Hy1 & Hy2 & Hz1 & Hz2 & Hf & Hh & Hr).
  destruct (disk_in_square _ _ Hr) as (Hax & Hax' & Haz & Haz').
  split_all; lra.
Qed.

(** The scan returns the first safe point, if there is one. *)
Lemma firstSafeSpawn_found (before after : list SpawnPoint)
    (spawn : SpawnPoint) :
  (forall q, In q before -> isSpawnSafe obstacles q = false) ->
  isSpawnSafe obstacles spawn = true ->
  firstSafeSpawn obstacles (before ++ spawn :: after) = Some spawn.
Proof.
  intros Hbefore Hsafe.
  induction before as [| q rest IH]; cbn [app firstSafeSpawn].
  - now rewrite Hsafe.
  - rewrite (Hbefore q) by now left. apply IH.
    intros q' Hin. apply Hbefore. now right.
Qed.

Lemma firstSafeSpawn_none (points : list SpawnPoint) :
  (forall q, In q points -> isSpawnSafe obstacles q = false) ->
  firstSafeSpawn obstacles points = None.
Proof.
  induction points as [| q rest IH]; intros Hall; cbn [firstSafeSpawn].
  - reflexivity.
  - rewrite (Hall q) by now left. apply IH.
    intros q' Hin. apply Hall. now right.
Qed.

(** C7 (as amended).  [isSpawnSafe] reports a point unsafe exactly when
    the axis-aligned box around it (half-width 0.65 on x and z, from the
    spawn's y up to y plus the standing height) overlaps some obstacle;
    this is the bounding box of the cylinder of radius 0.65, so every
    point whose cylinder overlaps an obstacle is reported unsafe.
    [resolveSpawnPoint] returns the preferred point when it is safe,
    otherwise the first safe point of the spawn list, otherwise the
    preferred point. *)
Theorem spawn_safety (preferred : SpawnPoint) :
  (isSpawnSafe obstacles preferred = false
     <-> exists o, In o obstacles /\ boxOverlaps preferred o)
  /\ ((exists o, In o obstacles /\ cylinderOverlaps preferred o) ->
      isSpawnSafe obstacles preferred = false)
  /\ (isSpawnSafe obstacles preferred = true ->
      resolveSpawnPoint obstacles spawnPoints preferred = preferred)
  /\ (isSpawnSafe obstacles preferred = false ->
      forall before spawn after,
        spawnPoints = (before ++ spawn :: after)%list ->
        (forall q, In q before -> isSpawnSafe obstacles q = false) ->
        isSpawnSafe obstacles spawn = true ->
        resolveSpawnPoint obstacles spawnPoints preferred = spawn)
  /\ (isSpawnSafe obstacles preferred = false ->
      (forall q, In q spawnPoints -> isSpawnSafe obstacles q = false) ->
      resolveSpawnPoint obstacles spawnPoints preferred = preferred).
Proof.
  split_all.
  - apply isSpawnSafe_from_false.
  - intros (o & Hin & Hcyl). apply isSpawnSafe_from_false.
    exists o. split; trivial. now apply cylinderOverlaps_boxOverlaps.
  - intros Hsafe. unfold resolveSpawnPoint. now rewrite Hsafe.
  - intros Hunsafe before spawn after -> Hbefore Hsafe.
    unfold resolveSpawnPoint.
    now rewrite Hunsafe, (firstSafeSpawn_found before after spawn).
  - intros Hunsafe Hall. unfold resolveSpawnPoint.
    now rewrite Hunsafe, (firstSafeSpawn_none spawnPoints).
Qed.

End SpawnSafety.

(** With the crate in the arena, the spawn off its corner is unsafe, and
    the scan falls back to the first spawn of the list that is clear. *)
Lemma spawn_safety_witness :
  isSpawnSafe [cornerCrate] cornerSpawn = false
  /\ resolveSpawnPoint [cornerCrate]
       [cornerSpawn; {| x := 5; y := 0; z := 5 |}] cornerSpawn
     = {| x := 5; y := 0; z := 5 |}.
Proof.
  assert (Hunsafe : isSpawnSafe [cornerCrate] cornerSpawn = false)
    by reflexivity.
  split; [exact Hunsafe |].
  destruct (spawn_safety [cornerCrate]
              [cornerSpawn; {| x := 5; y := 0; z := 5 |}] cornerSpawn)
    as (_ & _ & _ & Hscan & _).
  apply (Hscan Hunsafe [cornerSpawn] {| x := 5; y := 0; z := 5 |} []).
  - reflexivity.
  - intros q [<- | []]. exact Hunsafe.
  - reflexivity.
Defined.

(** C7, counterexample.  The spawn point diagonally off the crate's corner
    is reported unsafe although the cylinder of radius 0.65 around it
    reaches no obstacle: the nearest point of the crate is its corner,
    about 0.85 away. *)
Lemma isSpawnSafe_unsafe_without_cylinder_overlap :
  isSpawnSafe [cornerCrate] cornerSpawn = false
  /\ ~ (exists o, In o [cornerCrate] /\ cylinderOverlaps cornerSpawn o).
Proof.
  split; [reflexivity |].
  intros (o & [<- | []] & Hcyl).
  destruct Hcyl as (px & py & pz & Hx1 & _ & _ & _ & Hz1 & _ & _ & _ & Hr).
  cbn [cornerCrate cornerSpawn min max x y z] in *.
  nra.
Qed.

(* ================================================================== *)
(** * Part IV.  Further properties of the code                         *)
(* ================================================================== *)

(** ** Weapon state machine: invariants and sequences of transitions *)

(** Case analysis on every conditional of the goal, and the integer
    comparisons it leaves in the context turned into propositions. *)
Ltac destruct_ifs :=
  repeat match goal with
         | |- context [if ?c then _ else _] => destruct c eqn:?
         end.

Ltac zbool :=
  repeat match goal with
         | H : (_ <=? _)%Z = true |- _ => apply Z.leb_le in H
         | H : (_ <=? _)%Z = false |- _ => apply Z.leb_gt in H
         | H : (_ <? _)%Z = true |- _ => apply Z.ltb_lt in H
         | H : (_ <? _)%Z = false |- _ => apply Z.ltb_ge in H
         end.

Section WeaponSequences.

Local Open Scope Z_scope.

Lemma fireInterval_positive (w : WeaponId) : 0 < fireIntervalMs (WEAPONS w).
Proof. destruct w; reflexivity. Qed.

Lemma tryFireWeapon_fired (state : WeaponRuntimeState) (now : Z) :
  isReloading state now = false ->
  lastShotAt state + fireIntervalMs (WEAPONS (weaponId state)) <= now ->
  0 < ammoInMag state ->
  tryFireWeapon state now =
    {| next := {| weaponId := weaponId state;
                  ammoInMag := ammoInMag state - 1;
                  ammoReserve := ammoReserve state;
                  lastShotAt := now;
                  reloadingUntil := reloadingUntil state |};
       didFire := true;
       reason := fired |}.
Proof.
  unfold isReloading, tryFireWeapon. intros Hfree Hwarm Hammo.
  rewrite Hfree.
  assert (E1 : (now - lastShotAt state
                <? fireIntervalMs (WEAPONS (weaponId state))) = false)
    by (apply Z.ltb_ge; lia).
  assert (E2 : (ammoInMag state <=? 0) = false) by (apply Z.leb_gt; lia).
  now rewrite E1, E2.
Qed.

(** X1.  Fresh weapons are well formed, and firing, starting a reload and
    ticking a reload keep a well-formed state well formed and never change
    which weapon the state belongs to. *)
Theorem weapon_transitions_keep_wellformed :
  (forall w, wellFormedWeapon (createWeaponState w)
             /\ createInitialWeaponStates w = createWeaponState w)
  /\ (forall state now,
        wellFormedWeapon state ->
        wellFormedWeapon (next (tryFireWeapon state now))
        /\ wellFormedWeapon (beginReload state now)
        /\ wellFormedWeapon (tickReload state now))
  /\ (forall state now,
        weaponId (next (tryFireWeapon state now)) = weaponId state
        /\ weaponId (beginReload state now) = weaponId state
        /\ weaponId (tickReload state now) = weaponId state).
Proof.
  split_all.
  - intros w. split; [| destruct w; reflexivity].
    unfold wellFormedWeapon. destruct w; cbn; lia.
  - unfold wellFormedWeapon. intros state now ((Hlo & Hhi) & Hres).
    split_all.
    all: unfold tryFireWeapon, beginReload, tickReload.
    all: destruct (reloadingUntil state); destruct_ifs; zbool; cbn; lia.
  - intros state now. split_all.
    + unfold tryFireWeapon.
      repeat match goal with
             | |- context [if ?c then _ else _] => destruct c
             end; reflexivity.
    + unfold beginReload. destruct (reloadingUntil state); trivial.
      destruct (_ || _); reflexivity.
    + unfold tickReload. destruct (reloadingUntil state); trivial.
      destruct (now <? _); reflexivity.
Qed.

(** X2.  Rounds are neither created nor lost: starting and ticking a
    reload keep magazine plus reserve, and an attempt to fire removes
    exactly one round when it fires and none when it fails. *)
Theorem ammo_accounting (state : WeaponRuntimeState) (now : Z) :
  let total st := ammoInMag st + ammoReserve st in
  total (beginReload state now) = total state
  /\ total (tickReload state now) = total state
  /\ total (next (tryFireWeapon state now))
     = total state - (if didFire (tryFireWeapon state now) then 1 else 0).
Proof.
  cbv zeta. split_all.
  - unfold beginReload. destruct (reloadingUntil state); trivial.
    destruct (_ || _); reflexivity.
  - unfold tickReload. destruct (reloadingUntil state); trivial.
    destruct (now <? _); cbn; lia.
  - unfold tryFireWeapon.
    destruct (reloadingUntil state) as [deadline |];
      [destruct (now <? deadline) |];
      destruct (now - lastShotAt state
                <? fireIntervalMs (WEAPONS (weaponId state)));
      destruct (ammoInMag state <=? 0); cbn; lia.
Qed.

(** X3.  After a shot at time [t], every attempt earlier than
    [t + fireIntervalMs] fails and returns the state unchanged, with reason
    [cooldown] unless a reload is pending; an attempt at or after
    [t + fireIntervalMs] fires when no reload is pending and the shot at
    [t] left a round in the magazine. *)
Theorem fire_cooldown (state : WeaponRuntimeState) (t t' : Z)
    (Hshot : didFire (tryFireWeapon state t) = true) :
  let after := next (tryFireWeapon state t) in
  let interval := fireIntervalMs (WEAPONS (weaponId state)) in
  (t' < t + interval ->
     didFire (tryFireWeapon after t') = false
     /\ next (tryFireWeapon after t') = after
     /\ (isReloading state t' = false ->
         reason (tryFireWeapon after t') = cooldown))
  /\ (t + interval <= t' -> isReloading state t' = false ->
      1 < ammoInMag state ->
      didFire (tryFireWeapon after t') = true
      /\ ammoInMag (next (tryFireWeapon after t')) = ammoInMag state - 2).
Proof.
  cbv zeta.
  assert (Hafter : next (tryFireWeapon state t) =
                   {| weaponId := weaponId state;
                      ammoInMag := ammoInMag state - 1;
                      ammoReserve := ammoReserve state;
                      lastShotAt := t;
                      reloadingUntil := reloadingUntil state |}).
  { revert Hshot. unfold tryFireWeapon.
    repeat match goal with
           | |- context [if ?c then _ else _] => destruct c
           end; cbn; trivial; discriminate. }
  rewrite Hafter. split.
  - intros Hearly.
    assert (Hcool : (t' - t <? fireIntervalMs (WEAPONS (weaponId state)))
                    = true) by (apply Z.ltb_lt; lia).
    unfold tryFireWeapon, isReloading. cbn [weaponId lastShotAt reloadingUntil].
    destruct (match reloadingUntil state with
              | Some until => t' <? until
              | None => false
              end); cbn; [split_all; trivial; discriminate |].
    rewrite Hcool. cbn. split_all; trivial.
  - intros Hlate Hfree Hammo.
    rewrite tryFireWeapon_fired; cbn; trivial; lia.
Qed.

Lemma spacedFrom_earlier (interval last last' : Z) (times : list Z) :
  last' <= last -> spacedFrom interval last times ->
  spacedFrom interval last' times.
Proof.
  destruct times as [| t rest]; cbn; trivial.
  intros Hle [Hfirst Hrest]. split; [lia | exact Hrest].
Qed.

(** X4.  Pulling the trigger at times spaced by at least the fire interval,
    with no reload pending, spends one round per attempt until the
    magazine is empty and leaves the reserve alone: the magazine ends with
    [max 0 (ammoInMag - number of attempts)] rounds, never a negative
    count, and once it is empty the next spaced attempt reports
    [empty_mag]. *)
Theorem fireEach_spends_rounds (times : list Z) (state : WeaponRuntimeState)
    (Hidle : reloadingUntil state = None)
    (Hammo : 0 <= ammoInMag state)
    (Hspaced : spacedFrom (fireIntervalMs (WEAPONS (weaponId state)))
                 (lastShotAt state) times) :
  let final := fireEach state times in
  ammoInMag final
    = Z.max 0 (ammoInMag state - Z.of_nat (List.length times))
  /\ ammoReserve final = ammoReserve state
  /\ reloadingUntil final = None
  /\ (ammoInMag state <= Z.of_nat (List.length times) ->
      forall t,
        lastShotAt final + fireIntervalMs (WEAPONS (weaponId state)) <= t ->
        tryFireWeapon final t
        = {| next := final; didFire := false; reason := empty_mag |}).
Proof.
  cbv zeta. revert state Hidle Hammo Hspaced.
  induction times as [| t rest IH]; intros state Hidle Hammo Hspaced.
  - cbn [fireEach List.length]. split_all; trivial; [lia |].
    intros Hempty t Hwarm. unfold tryFireWeapon. rewrite Hidle.
    assert (E1 : (t - lastShotAt state
                  <? fireIntervalMs (WEAPONS (weaponId state))) = false)
      by (apply Z.ltb_ge; lia).
    assert (E2 : (ammoInMag state <=? 0) = true)
      by (apply Z.leb_le; cbn in Hempty; lia).
    now rewrite E1, E2.
  - cbn [fireEach]. destruct Hspaced as [Hfirst Hrest].
    pose proof (fireInterval_positive (weaponId state)) as Hpos.
    destruct (Z.eq_dec (ammoInMag state) 0) as [Hzero | Hsome].
    + assert (Hsame : next (tryFireWeapon state t) = state).
      { unfold tryFireWeapon. rewrite Hidle.
        assert (E1 : (t - lastShotAt state
                      <? fireIntervalMs (WEAPONS (weaponId state))) = false)
          by (apply Z.ltb_ge; lia).
        rewrite E1, Hzero. reflexivity. }
      rewrite Hsame.
      destruct (IH state Hidle Hammo) as (Hmag & Hres & Hnone & Hnext).
      { apply (spacedFrom_earlier _ t); [lia | exact Hrest]. }
      split_all; trivial.
      * rewrite Hmag. cbn [List.length]. lia.
      * intros _. apply Hnext. lia.
    + rewrite tryFireWeapon_fired;
        [| unfold isReloading; now rewrite Hidle | lia | lia].
      cbn [next].
      set (after := {| weaponId := weaponId state;
                       ammoInMag := ammoInMag state - 1;
                       ammoReserve := ammoReserve state;
                       lastShotAt := t;
                       reloadingUntil := reloadingUntil state |}).
      destruct (IH after) as (Hmag & Hres & Hnone & Hnext);
        [exact Hidle | cbn; lia | exact Hrest |].
      split_all; trivial.
      * rewrite Hmag. cbn [after ammoInMag List.length]. lia.
      * intros Hempty. apply Hnext. cbn [after ammoInMag].
        cbn [List.length] in Hempty. lia.
Qed.

(** X5.  A reload started at [t0] on a state with room in the magazine and
    rounds in reserve is pending until [t0 + reloadMs]: before that time
    [isReloading] holds, firing is refused with [reloading], and ticking
    or starting the reload again changes nothing; from that time on a tick
    completes it, adding at least one round to the magazine, after which
    no reload is pending and further ticks change nothing. *)
Theorem reload_lifecycle (state : WeaponRuntimeState) (t0 : Z)
    (Hidle : reloadingUntil state = None)
    (Hroom : ammoInMag state < magSize (WEAPONS (weaponId state)))
    (Hreserve : 0 < ammoReserve state) :
  let started := beginReload state t0 in
  let deadline := t0 + reloadMs (WEAPONS (weaponId state)) in
  (forall t, t < deadline ->
     isReloading started t = true
     /\ tryFireWeapon started t
        = {| next := started; didFire := false; reason := reloading |}
     /\ tickReload started t = started
     /\ beginReload started t = started)
  /\ (forall t, deadline <= t ->
      let complete := tickReload started t in
      isReloading started t = false
      /\ reloadingUntil complete = None
      /\ ammoInMag state < ammoInMag complete
      /\ lastShotAt complete = lastShotAt state
      /\ forall t', tickReload complete t' = complete).
Proof.
  cbv zeta.
  assert (Hstarted : beginReload state t0 =
                     {| weaponId := weaponId state;
                        ammoInMag := ammoInMag state;
                        ammoReserve := ammoReserve state;
                        lastShotAt := lastShotAt state;
                        reloadingUntil :=
                          Some (t0 + reloadMs (WEAPONS (weaponId state))) |}).
  { unfold beginReload. rewrite Hidle.
    assert (E1 : (ammoInMag state >=? magSize (WEAPONS (weaponId state)))
                 = false) by (rewrite Z.geb_leb; apply Z.leb_gt; lia).
    assert (E2 : (ammoReserve state <=? 0) = false) by (apply Z.leb_gt; lia).
    now rewrite E1, E2. }
  rewrite Hstarted. split.
  - intros t Hearly. apply Z.ltb_lt in Hearly.
    unfold isReloading, tryFireWeapon, tickReload, beginReload.
    cbn [reloadingUntil weaponId]. rewrite Hearly. split_all; reflexivity.
  - intros t Hlate. apply Z.ltb_ge in Hlate.
    unfold isReloading, tickReload. cbn [reloadingUntil weaponId ammoInMag
      ammoReserve lastShotAt]. rewrite Hlate. cbn. split_all; trivial.
    lia.
Qed.

(** X6.  A completed reload moves as many rounds as it can: afterwards the
    magazine is full or the reserve is empty (or both). *)
Theorem tickReload_fills_or_drains (state : WeaponRuntimeState)
    (now deadline : Z)
    (Hwf : wellFormedWeapon state)
    (Hpending : reloadingUntil state = Some deadline)
    (Hdue : deadline <= now) :
  ammoInMag (tickReload state now) = magSize (WEAPONS (weaponId state))
  \/ ammoReserve (tickReload state now) = 0.
Proof.
  destruct Hwf as ((Hlo & Hhi) & Hres).
  unfold tickReload. rewrite Hpending.
  apply Z.ltb_ge in Hdue. rewrite Hdue. cbn. lia.
Qed.

(** X7.  A freshly created weapon is never held back by the cooldown: its
    first shot succeeds at every non-negative timestamp and leaves
    [magSize - 1] rounds. *)
Theorem fresh_weapon_fires (w : WeaponId) (now : Z) (Hnow : 0 <= now) :
  tryFireWeapon (createWeaponState w) now =
    {| next := {| weaponId := w;
                  ammoInMag := magSize (WEAPONS w) - 1;
                  ammoReserve := reserveAmmo (WEAPONS w);
                  lastShotAt := now;
                  reloadingUntil := None |};
       didFire := true;
       reason := fired |}.
Proof.
  rewrite tryFireWeapon_fired.
  - reflexivity.
  - reflexivity.
  - unfold createWeaponState, MAX_SAFE_INTEGER. cbn [lastShotAt weaponId].
    destruct w; cbn; lia.
  - destruct w; reflexivity.
Qed.

End WeaponSequences.

Lemma weapon_transitions_keep_wellformed_witness :
  wellFormedWeapon (lowAmmo shotgun)
  /\ wellFormedWeapon (tickReload (beginReload (lowAmmo shotgun) 5000) 7701).
Proof.
  assert (Hwf : wellFormedWeapon (lowAmmo shotgun))
    by (unfold wellFormedWeapon; cbn; lia).
  split; [exact Hwf |].
  destruct weapon_transitions_keep_wellformed as (_ & Hkeep & _).
  destruct (Hkeep (lowAmmo shotgun) 5000%Z Hwf) as (_ & Hbegin & _).
  exact (proj2 (proj2 (Hkeep _ 7701%Z Hbegin))).
Defined.

Lemma fire_cooldown_witness :
  didFire (tryFireWeapon (createWeaponState pistol) 1000) = true
  /\ reason (tryFireWeapon
               (next (tryFireWeapon (createWeaponState pistol) 1000)) 1001)
     = cooldown.
Proof.
  assert (Hshot : didFire (tryFireWeapon (createWeaponState pistol) 1000)
                  = true) by reflexivity.
  split; [exact Hshot |].
  destruct (fire_cooldown (createWeaponState pistol) 1000 1001 Hshot)
    as (Hearly & _).
  apply Hearly; [vm_compute; reflexivity | reflexivity].
Defined.

Lemma fireEach_spends_rounds_witness :
  ammoInMag (fireEach (lowAmmo shotgun) [1000; 2000; 3000]%Z) = 0%Z.
Proof.
  apply (fireEach_spends_rounds [1000; 2000; 3000]%Z (lowAmmo shotgun)).
  - reflexivity.
  - vm_compute; discriminate.
  - vm_compute. repeat split; discriminate.
Defined.

Lemma reload_lifecycle_witness :
  isReloading (beginReload (lowAmmo shotgun) 5000) 5050 = true.
Proof.
  apply (reload_lifecycle (lowAmmo shotgun) 5000);
    vm_compute; reflexivity.
Defined.

Lemma tickReload_fills_or_drains_witness :
  ammoInMag (tickReload (beginReload (lowAmmo assaultRifle) 5000) 7101)
    = magSize (WEAPONS assaultRifle)
  \/ ammoReserve (tickReload (beginReload (lowAmmo assaultRifle) 5000) 7101)
     = 0%Z.
Proof.
  apply (tickReload_fills_or_drains (beginReload (lowAmmo assaultRifle) 5000)
           7101 7100).
  - unfold wellFormedWeapon. cbn. lia.
  - reflexivity.
  - vm_compute; discriminate.
Defined.

Lemma fresh_weapon_fires_witness :
  didFire (tryFireWeapon (createWeaponState assaultRifle) 1000) = true.
Proof.
  rewrite (fresh_weapon_fires assaultRifle 1000).
  - reflexivity.
  - vm_compute; discriminate.
Defined.

(** ** Damage model: monotonicity and range *)

Section DamageBounds.

Local Open Scope Q_scope.

Lemma armorBlockScale_bounds (armorPenetration : Q) :
  0 <= clamp (1 - armorPenetration) 0 1 <= 1.
Proof. apply clamp_bounds. lra. Qed.

(** X8.  A hit of non-negative raw damage on a player with non-negative
    health and armor never heals: health and armor do not grow, the
    health lost is between 0 and the raw damage, the armor spent is at
    most 65% of the raw damage, and a player who survives the hit loses at
    least 64.25% of the raw damage in health. *)
Theorem applyDamage_never_heals (state : DamageState)
    (rawDamage armorPenetration : Q)
    (Hraw : 0 <= rawDamage)
    (Hhealth : 0 <= health state) (Harmor : 0 <= armor state) :
  let result := applyDamage state rawDamage armorPenetration in
  res_health result <= health state
  /\ res_armor result <= armor state
  /\ 0 <= damageApplied result <= rawDamage
  /\ armor state - res_armor result <= 0.65 * rawDamage
  /\ (isEliminated result = false ->
      0.6425 * rawDamage <= damageApplied result).
Proof.
  cbv zeta. unfold applyDamage.
  cbn [res_health res_armor damageApplied isEliminated].
  pose proof (armorBlockScale_bounds armorPenetration) as [Hs0 Hs1].
  set (s := clamp (1 - armorPenetration) 0 1) in *.
  assert (Hblock : 0 <= rawDamage * s * 0.65 <= 0.65 * rawDamage)
    by (split; nra).
  set (blocked := rawDamage * s * 0.65) in *.
  destruct (Q.min_spec (armor state) blocked) as [[Hc1 E1] | [Hc1 E1]];
    set (spend := Qmin (armor state) blocked) in *;
    destruct (Q.max_spec 0 (armor state - spend)) as [[Hc2 E2] | [Hc2 E2]];
    destruct (Q.max_spec 0 (health state - (rawDamage - spend * 0.55)))
      as [[Hc3 E3] | [Hc3 E3]];
    (split_all; try lra;
     intros Halive; unfold Qleb in Halive; apply Qle_bool_false in Halive;
     lra).
Qed.

(** X9.  An armor penetration outside [0, 1] acts as the nearest bound:
    at 1 or above the armor absorbs nothing, so it is kept and the health
    lost is the raw damage, capped by the health there is; at 0 or below
    the armor blocks as for penetration 0. *)
Theorem applyDamage_penetration_saturates (state : DamageState)
    (rawDamage armorPenetration : Q)
    (Hraw : 0 <= rawDamage)
    (Hhealth : 0 <= health state) (Harmor : 0 <= armor state) :
  (1 <= armorPenetration ->
     res_armor (applyDamage state rawDamage armorPenetration) == armor state
     /\ damageApplied (applyDamage state rawDamage armorPenetration)
        == Qmin (health state) rawDamage)
  /\ (armorPenetration <= 0 ->
      res_armor (applyDamage state rawDamage armorPenetration)
        == res_armor (applyDamage state rawDamage 0)
      /\ res_health (applyDamage state rawDamage armorPenetration)
         == res_health (applyDamage state rawDamage 0)).
Proof.
  split.
  - intros Hfull.
    assert (Hs : clamp (1 - armorPenetration) 0 1 == 0).
    { unfold clamp, Qgtb.
      destruct (Qltb (1 - armorPenetration) 0) eqn:E1; [reflexivity |].
      apply Qltb_ge in E1.
      destruct (Qltb 1 (1 - armorPenetration)) eqn:E2;
        [apply Qltb_lt in E2 |]; lra. }
    unfold applyDamage. cbn [res_armor damageApplied].
    set (s := clamp (1 - armorPenetration) 0 1) in *.
    assert (Hblocked : rawDamage * s * 0.65 == 0) by (rewrite Hs; ring).
    set (blocked := rawDamage * s * 0.65) in *.
    destruct (Q.min_spec (armor state) blocked) as [[Hc1 E1] | [Hc1 E1]];
      set (spend := Qmin (armor state) blocked) in *;
      destruct (Q.max_spec 0 (armor state - spend)) as [[Hc2 E2] | [Hc2 E2]];
      destruct (Q.max_spec 0 (health state - (rawDamage - spend * 0.55)))
        as [[Hc3 E3] | [Hc3 E3]];
      destruct (Q.min_spec (health state) rawDamage) as [[Hc4 E4] | [Hc4 E4]];
      split; lra.
  - intros Hnone.
    assert (Hs : clamp (1 - armorPenetration) 0 1 == clamp (1 - 0) 0 1).
    { change (clamp (1 - 0) 0 1) with (1 - 0). unfold clamp, Qgtb.
      destruct (Qltb (1 - armorPenetration) 0) eqn:E1;
        [apply Qltb_lt in E1; lra |].
      destruct (Qltb 1 (1 - armorPenetration)) eqn:E2;
        [| apply Qltb_ge in E2]; lra. }
    unfold applyDamage. cbn [res_armor res_health]. rewrite Hs.
    split; reflexivity.
Qed.

End DamageBounds.

Section DamageFalloff.

Local Open Scope Q_scope.

Lemma Math_round_compat (a b : Q) : a == b -> Math_round a = Math_round b.
Proof. intros E. unfold Math_round. now rewrite E. Qed.

(** X10.  Damage never grows with distance: a farther target takes at
    most the damage of a nearer one, for every weapon and for body shots
    and headshots alike; in particular no distance from 0 up beats the
    point-blank damage. *)
Theorem computeWeaponDamage_falls_with_distance (w : WeaponId)
    (near far : Q) (isHeadshot : bool) (Hfarther : near <= far) :
  (computeWeaponDamage w far isHeadshot
   <= computeWeaponDamage w near isHeadshot)%Z
  /\ (0 <= near ->
      (computeWeaponDamage w near isHeadshot
       <= computeWeaponDamage w 0 isHeadshot)%Z).
Proof.
  assert (Hmono : forall a b, a <= b ->
    (computeWeaponDamage w b isHeadshot
     <= computeWeaponDamage w a isHeadshot)%Z).
  { intros a b Hab. unfold computeWeaponDamage.
    apply Z.max_le_compat_l, Math_round_monotone.
    assert (Hscale : Qmax 0.28 (1 - b * falloffPerMeter (WEAPONS w))
                     <= Qmax 0.28 (1 - a * falloffPerMeter (WEAPONS w))).
    { apply Q.max_le_compat_l.
      destruct w; cbn [WEAPONS falloffPerMeter]; nra. }
    destruct w, isHeadshot;
      cbn [WEAPONS baseDamage headshotMultiplier falloffPerMeter] in *; lra. }
  split; [now apply Hmono | intros Hnear; now apply Hmono].
Qed.

(** X11.  Beyond the range where the falloff reaches its floor of 0.28
    ([distance * falloffPerMeter >= 0.72]: 60 m for the rifle, 15 m for the
    shotgun, 40 m for the pistol) the damage no longer depends on the
    distance: 8, 3 and 9 for body shots and 29, 6 and 25 for headshots. *)
Theorem computeWeaponDamage_far_range (w : WeaponId) (d : Q)
    (isHeadshot : bool)
    (Hfar : 0.72 <= d * falloffPerMeter (WEAPONS w)) :
  computeWeaponDamage w d isHeadshot =
    match w, isHeadshot with
    | assaultRifle, false => 8
    | assaultRifle, true => 29
    | shotgun, false => 3
    | shotgun, true => 6
    | pistol, false => 9
    | pistol, true => 25
    end%Z.
Proof.
  unfold computeWeaponDamage.
  assert (Hscale : Qmax 0.28 (1 - d * falloffPerMeter (WEAPONS w)) == 0.28)
    by (apply Q.max_l; lra).
  set (scale := Qmax 0.28 (1 - d * falloffPerMeter (WEAPONS w))) in *.
  rewrite (Math_round_compat
             (baseDamage (WEAPONS w) * scale
              * (if isHeadshot then headshotMultiplier (WEAPONS w) else 1))
             (baseDamage (WEAPONS w) * 0.28
              * (if isHeadshot then headshotMultiplier (WEAPONS w) else 1)))
    by (rewrite Hscale; reflexivity).
  destruct w, isHeadshot; reflexivity.
Qed.

End DamageFalloff.

Lemma applyDamage_never_heals_witness :
  damageApplied (applyDamage {| health := 100; armor := 100 |} 28 0.57) <= 28.
Proof.
  destruct (applyDamage_never_heals {| health := 100; armor := 100 |} 28 0.57)
    as (_ & _ & (_ & Hcap) & _); [cbn; discriminate .. | exact Hcap].
Defined.

Lemma applyDamage_penetration_saturates_witness :
  res_armor (applyDamage {| health := 100; armor := 50 |} 28 2) == 50.
Proof.
  apply (applyDamage_penetration_saturates
           {| health := 100; armor := 50 |} 28 2);
    cbn; discriminate.
Defined.

Lemma computeWeaponDamage_falls_with_distance_witness :
  (computeWeaponDamage pistol 30 false
   <= computeWeaponDamage pistol 5 false)%Z.
Proof.
  assert (Hfarther : 5 <= 30) by (cbn; discriminate).
  exact (proj1 (computeWeaponDamage_falls_with_distance pistol 5 30 false
                  Hfarther)).
Defined.

Lemma computeWeaponDamage_far_range_witness :
  computeWeaponDamage shotgun 20 true = 6%Z.
Proof.
  apply (computeWeaponDamage_far_range shotgun 20 true).
  cbn; discriminate.
Defined.

(** ** Kinematics: the helpers and what a step can and cannot do *)

Section MovementBounds.

Local Open Scope Q_scope.

Lemma Qabs_cases (a : Q) :
  (0 <= a /\ Qabs a == a) \/ (a <= 0 /\ Qabs a == - a).
Proof.
  destruct (Qlt_le_dec a 0) as [Hneg | Hpos].
  - right. split; [lra | apply Qabs_neg; lra].
  - left. split; [lra | now apply Qabs_pos].
Qed.

(** X12.  [approach] moves [current] towards [target] by at most the
    non-negative [maxDelta] and never past it: it returns [target] itself
    when that is within reach, otherwise it closes the gap by exactly
    [maxDelta], staying on the same side of the target. *)
Theorem approach_contract (current target maxDelta : Q)
    (Hdelta : 0 <= maxDelta) :
  let result := approach current target maxDelta in
  (Qabs (target - current) <= maxDelta -> result = target)
  /\ (maxDelta < Qabs (target - current) ->
      Qabs (target - result) == Qabs (target - current) - maxDelta
      /\ Qabs (result - current) == maxDelta)
  /\ Qabs (result - current) <= maxDelta
  /\ Qabs (target - result) <= Qabs (target - current)
  /\ (current <= target -> current <= result <= target)
  /\ (target <= current -> target <= result <= current).
Proof.
  cbv zeta. unfold approach, Qleb, Math_sign.
  destruct (Qabs_cases (target - current)) as [[Hs Ha] | [Hs Ha]];
    destruct (Qle_bool (Qabs (target - current)) maxDelta) eqn:Ereach;
    [apply Qle_bool_iff in Ereach | apply Qle_bool_false in Ereach
    |apply Qle_bool_iff in Ereach | apply Qle_bool_false in Ereach].
  - destruct (Qabs_cases (target - target)) as [[_ Hb] | [_ Hb]];
      destruct (Qabs_cases (target - current)) as [[_ Hc] | [_ Hc]];
      split_all; trivial; intros; lra.
  - destruct (Qltb 0 (target - current)) eqn:Epos;
      [| apply Qltb_ge in Epos; lra].
    set (result := current + 1 * maxDelta).
    destruct (Qabs_cases (target - result)) as [[Hr Hb] | [Hr Hb]];
      destruct (Qabs_cases (result - current)) as [[Hr' Hc] | [Hr' Hc]];
      unfold result in *; split_all; intros; lra.
  - destruct (Qabs_cases (target - target)) as [[_ Hb] | [_ Hb]];
      split_all; trivial; intros; lra.
  - destruct (Qltb 0 (target - current)) eqn:Epos;
      [apply Qltb_lt in Epos; lra |].
    destruct (Qltb (target - current) 0) eqn:Eneg;
      [| apply Qltb_ge in Eneg; lra].
    set (result := current + -1 * maxDelta).
    destruct (Qabs_cases (target - result)) as [[Hr Hb] | [Hr Hb]];
      destruct (Qabs_cases (result - current)) as [[Hr' Hc] | [Hr' Hc]];
      unfold result in *; split_all; intros; lra.
Qed.

(** X13.  With ordered bounds, [clamp] returns a value within them, is
    the identity on values already within them, and is idempotent. *)
Theorem clamp_contract (value lo hi : Q) (Hordered : lo <= hi) :
  lo <= clamp value lo hi <= hi
  /\ (lo <= value <= hi -> clamp value lo hi = value)
  /\ clamp (clamp value lo hi) lo hi = clamp value lo hi.
Proof.
  unfold clamp, Qgtb.
  destruct (Qltb value lo) eqn:E1;
    [apply Qltb_lt in E1 | apply Qltb_ge in E1].
  - assert (E3 : Qltb lo lo = false) by (apply Qltb_ge; lra).
    assert (E4 : Qltb hi lo = false) by (apply Qltb_ge; lra).
    rewrite E3, E4. split_all; trivial; intros; lra.
  - destruct (Qltb hi value) eqn:E2;
      [apply Qltb_lt in E2 | apply Qltb_ge in E2].
    + assert (E3 : Qltb hi lo = false) by (apply Qltb_ge; lra).
      assert (E4 : Qltb hi hi = false) by (apply Qltb_ge; lra).
      rewrite E3, E4. split_all; trivial; intros; lra.
    + assert (E3 : Qltb value lo = false) by (apply Qltb_ge; lra).
      assert (E4 : Qltb hi value = false) by (apply Qltb_ge; lra).
      rewrite E3, E4. split_all; trivial; lra.
Qed.

End MovementBounds.

Lemma approach_contract_witness :
  approach 0 5.6 1.6 == 1.6 /\ approach 5 5.6 1.6 = 5.6.
Proof.
  assert (Hdelta : 0 <= 1.6) by (cbn; discriminate).
  split; [reflexivity |].
  apply (approach_contract 5 5.6 1.6 Hdelta). cbn; discriminate.
Defined.

Lemma clamp_contract_witness : clamp 40 (-30.66) 30.66 <= 30.66.
Proof.
  apply (clamp_contract 40 (-30.66) 30.66). cbn; discriminate.
Defined.

Section StepInvariants.

Local Open Scope Q_scope.

Lemma approach_reach (current target maxDelta : Q) :
  0 <= maxDelta -> Qabs (approach current target maxDelta - current) <= maxDelta.
Proof.
  intros Hdelta. unfold approach, Qleb, Math_sign.
  destruct (Qle_bool (Qabs (target - current)) maxDelta) eqn:Ereach.
  - now apply Qle_bool_iff in Ereach.
  - destruct (Qltb 0 (target - current));
      [| destruct (Qltb (target - current) 0)].
    + destruct (Qabs_cases (current + 1 * maxDelta - current))
        as [[? E] | [? E]]; lra.
    + destruct (Qabs_cases (current + -1 * maxDelta - current))
        as [[? E] | [? E]]; lra.
    + destruct (Qabs_cases (current + 0 * maxDelta - current))
        as [[? E] | [? E]]; lra.
Qed.

Lemma Qabs_min_zero (a : Q) : Qabs (Qmin a 0) <= Qabs a.
Proof.
  destruct (Q.min_spec a 0) as [[? E] | [? E]];
    destruct (Qabs_cases (Qmin a 0)) as [[? E1] | [? E1]];
    destruct (Qabs_cases a) as [[? E2] | [? E2]]; lra.
Qed.

Lemma Qabs_max_zero (a : Q) : Qabs (Qmax a 0) <= Qabs a.
Proof.
  destruct (Q.max_spec a 0) as [[? E] | [? E]];
    destruct (Qabs_cases (Qmax a 0)) as [[? E1] | [? E1]];
    destruct (Qabs_cases a) as [[? E2] | [? E2]]; lra.
Qed.

(** One obstacle never speeds the player up. *)
Lemma resolveObstacle_slows (bottom top : Q) (p v : Vec3) (o : Aabb) :
  Qabs (x (snd (resolveObstacle bottom top (p, v) o))) <= Qabs (x v)
  /\ Qabs (z (snd (resolveObstacle bottom top (p, v) o))) <= Qabs (z v).
Proof.
  unfold resolveObstacle.
  repeat match goal with
         | |- context [if ?c then _ else _] => destruct c
         end; cbn [snd x z];
    split; first [apply Qle_refl | apply Qabs_min_zero | apply Qabs_max_zero].
Qed.

(** Nor does a list of them. *)
Lemma resolveHorizontalCollisions_slows (obstacles : list Aabb)
    (p v : Vec3) (height : Q) :
  Qabs (x (snd (resolveHorizontalCollisions p v height obstacles)))
    <= Qabs (x v)
  /\ Qabs (z (snd (resolveHorizontalCollisions p v height obstacles)))
     <= Qabs (z v).
Proof.
  unfold resolveHorizontalCollisions.
  generalize (y p) as bottom, (y p + height) as top. intros bottom top.
  revert p v. induction obstacles as [| o rest IH]; intros p v;
    cbn [fold_left snd]; [split; apply Qle_refl |].
  destruct (resolveObstacle bottom top (p, v) o) as [p' v'] eqn:E.
  pose proof (resolveObstacle_slows bottom top p v o) as [Hx Hz].
  rewrite E in Hx, Hz. cbn [snd] in Hx, Hz.
  destruct (IH p' v') as [IHx IHz].
  split; eapply Qle_trans; eassumption.
Qed.

Variable Math_cos Math_sin : Q -> Q.
Variable Math_hypot : Q -> Q -> Q.

(** X14.  Whatever the obstacles, a step never leaves the player below the
    floor and records the crouch input as the crouching flag; the
    integrated position (the step over no obstacles) lies within the arena
    bounds inset by the player radius whenever those bounds are ordered. *)
Theorem stepPlayerMovement_stays_in_arena (state : PlayerBodyState)
    (input : InputState) (dt : Q) (obstacles : list Aabb)
    (bounds : ArenaBounds) :
  let result :=
    stepPlayerMovement Math_cos Math_sin Math_hypot state input dt
      obstacles bounds in
  let free :=
    stepPlayerMovement Math_cos Math_sin Math_hypot state input dt []
      bounds in
  floorY bounds <= y (position result)
  /\ crouching result = crouch input
  /\ (minX bounds + PLAYER_RADIUS <= maxX bounds - PLAYER_RADIUS ->
      minX bounds + PLAYER_RADIUS <= x (position free)
        <= maxX bounds - PLAYER_RADIUS)
  /\ (minZ bounds + PLAYER_RADIUS <= maxZ bounds - PLAYER_RADIUS ->
      minZ bounds + PLAYER_RADIUS <= z (position free)
        <= maxZ bounds - PLAYER_RADIUS).
Proof.
  cbv zeta.
  rewrite (stepPlayerMovement_factors Math_cos Math_sin Math_hypot state
             input dt bounds obstacles). cbv zeta.
  cbn [position crouching].
  rewrite (proj1 (resolveHorizontalCollisions_vertical obstacles _ _ _)).
  unfold stepPlayerMovement, resolveHorizontalCollisions. cbn [fold_left].
  destruct (Qgtb _ 0);
    destruct (grounded state && jump input && negb (crouch input));
    cbn [x y z];
    destruct (Qltb _ (floorY bounds)) eqn:Efloor;
    cbn [fst snd position crouching x y z];
    (split_all;
     [ first [apply Qle_refl | now apply Qltb_ge in Efloor]
     | reflexivity
     | apply clamp_bounds
     | apply clamp_bounds ]).
Qed.

(** X15.  Over one tick with [dt >= 0] the integrated horizontal velocity
    changes by at most [ACCELERATION * dt] on each axis, with or without
    movement input. *)
Theorem stepPlayerMovement_acceleration_bound (state : PlayerBodyState)
    (input : InputState) (dt : Q) (bounds : ArenaBounds)
    (Hdt : 0 <= dt) :
  let free :=
    stepPlayerMovement Math_cos Math_sin Math_hypot state input dt []
      bounds in
  Qabs (x (velocity free) - x (velocity state)) <= ACCELERATION * dt
  /\ Qabs (z (velocity free) - z (velocity state)) <= ACCELERATION * dt.
Proof.
  cbv zeta.
  assert (Hacc : 0 <= ACCELERATION * dt) by (unfold ACCELERATION; lra).
  assert (Hfric : 0 <= FRICTION * dt) by (unfold FRICTION; lra).
  assert (Hle : FRICTION * dt <= ACCELERATION * dt)
    by (unfold FRICTION, ACCELERATION; lra).
  unfold stepPlayerMovement, resolveHorizontalCollisions. cbn [fold_left].
  destruct (Qgtb _ 0);
    destruct (grounded state && jump input && negb (crouch input));
    cbn [x y z];
    destruct (Qltb _ (floorY bounds));
    cbn [fst snd velocity x y z];
    split;
    first [ now apply approach_reach
          | eapply Qle_trans; [apply approach_reach; exact Hfric | exact Hle] ].
Qed.

(** X16.  Collision resolution over any list of obstacles leaves the
    vertical position and velocity alone, never increases the magnitude of
    a horizontal velocity component, ends with the position not strictly
    inside the last obstacle of the list, and changes nothing at all when
    no obstacle contains the position. *)
Theorem resolveHorizontalCollisions_contract (p v : Vec3) (height : Q)
    (obstacles : list Aabb) :
  let r := resolveHorizontalCollisions p v height obstacles in
  y (fst r) = y p /\ y (snd r) = y v
  /\ Qabs (x (snd r)) <= Qabs (x v)
  /\ Qabs (z (snd r)) <= Qabs (z v)
  /\ (forall front last, obstacles = (front ++ [last])%list ->
      ~ insideInflated (fst r) height last)
  /\ ((forall o, In o obstacles -> ~ insideInflated p height o) ->
      r = (p, v)).
Proof.
  cbv zeta.
  destruct (resolveHorizontalCollisions_vertical obstacles p v height)
    as [Hpy Hvy].
  split_all; trivial.
  - apply resolveHorizontalCollisions_slows.
  - apply resolveHorizontalCollisions_slows.
  - intros front last ->.
    unfold resolveHorizontalCollisions. rewrite fold_left_app.
    cbn [fold_left].
    destruct (resolveHorizontalCollisions_vertical front p v height)
      as [Hy _].
    unfold resolveHorizontalCollisions in Hy.
    set (acc := fold_left (resolveObstacle (y p) (y p + height)) front (p, v))
      in *.
    destruct acc as [q w]. cbn [fst] in Hy. rewrite <- Hy.
    destruct (resolveObstacle_outcome height last q w) as [Hout Hin].
    cbv zeta in Hout, Hin. intros Hafter.
    assert (Hdec : insideInflated q height last
                   \/ ~ insideInflated q height last).
    { unfold insideInflated.
      destruct (Qlt_le_dec (y q) (y (max last)));
        destruct (Qlt_le_dec (y (min last)) (y q + height));
        destruct (Qlt_le_dec (x (min last) - PLAYER_RADIUS) (x q));
        destruct (Qlt_le_dec (x q) (x (max last) + PLAYER_RADIUS));
        destruct (Qlt_le_dec (z (min last) - PLAYER_RADIUS) (z q));
        destruct (Qlt_le_dec (z q) (z (max last) + PLAYER_RADIUS));
        first [ left; split_all; assumption
              | right; intros (? & ? & ? & ? & ? & ?); lra ]. }
    destruct Hdec as [Hins | Hnot].
    + exact (pushedOut_not_inside height last q w _ _ (Hin Hins) Hafter).
    + rewrite (Hout Hnot) in Hafter. exact (Hnot Hafter).
  - apply resolveHorizontalCollisions_clear.
Qed.

End StepInvariants.

Lemma stepPlayerMovement_stays_in_arena_witness :
  minX arena + PLAYER_RADIUS
  <= x (position (stepPlayerMovement cos_yaw0 sin_yaw0 hypot_axis runner
                    forwardKey (1 # 30) [] arena)).
Proof.
  destruct (stepPlayerMovement_stays_in_arena cos_yaw0 sin_yaw0 hypot_axis
              runner forwardKey (1 # 30) [wall] arena)
    as (_ & _ & Hx & _).
  apply Hx. cbn; discriminate.
Defined.

Lemma stepPlayerMovement_acceleration_bound_witness :
  Qabs (z (velocity (stepPlayerMovement cos_yaw0 sin_yaw0 hypot_axis runner
                       forwardKey (1 # 30) [] arena))
        - z (velocity runner))
  <= ACCELERATION * (1 # 30).
Proof.
  apply (stepPlayerMovement_acceleration_bound cos_yaw0 sin_yaw0 hypot_axis
           runner forwardKey (1 # 30) arena).
  cbn; discriminate.
Defined.

Lemma resolveHorizontalCollisions_contract_witness :
  ~ insideInflated
      (fst (resolveHorizontalCollisions {| x := 0; y := 0; z := -0.2 |}
              {| x := 0; y := 0; z := -5.6 |} PLAYER_HEIGHT_STANDING
              [cornerCrate; wall]))
      PLAYER_HEIGHT_STANDING wall.
Proof.
  destruct (resolveHorizontalCollisions_contract
              {| x := 0; y := 0; z := -0.2 |} {| x := 0; y := 0; z := -5.6 |}
              PLAYER_HEIGHT_STANDING [cornerCrate; wall])
    as (_ & _ & _ & _ & Hlast & _).
  apply (Hlast [cornerCrate] wall). reflexivity.
Defined.

(** ** Ray casting against obstacles *)

(** The rational comparisons of the context turned into propositions. *)
Ltac qbool :=
  repeat match goal with
         | H : Qltb _ _ = true |- _ => apply Qltb_lt in H
         | H : Qltb _ _ = false |- _ => apply Qltb_ge in H
         end.

Section RayCasting.

Local Open Scope Q_scope.

Lemma num_le_Finite (a b : Q) : num_le (Finite a) (Finite b) <-> a <= b.
Proof. unfold num_le. cbn. apply Qltb_ge. Qed.

Lemma num_ltb_Finite (a b : Q) : num_ltb (Finite a) (Finite b) = true <-> a < b.
Proof. cbn. apply Qltb_lt. Qed.

Lemma num_le_max (a b c : Num) :
  num_le (num_max a b) c <-> num_le a c /\ num_le b c.
Proof.
  unfold num_le, num_max.
  destruct a as [| p |], b as [| q |], c as [| r |]; cbn;
    try (split; [intros H; split; trivial; discriminate | intros [? ?]; trivial; discriminate]);
    try tauto;
    repeat match goal with
           | |- context [Qltb ?u ?v] =>
               let E := fresh "E" in
               destruct (Qltb u v) eqn:E;
               [apply Qltb_lt in E | apply Qltb_ge in E]
           end; cbn;
    rewrite ?Qltb_ge;
    split; intros; split_all; try discriminate; try lra; try tauto.
Qed.

Lemma num_le_min (a b c : Num) :
  num_le c (num_min a b) <-> num_le c a /\ num_le c b.
Proof.
  unfold num_le, num_min.
  destruct a as [| p |], b as [| q |], c as [| r |]; cbn;
    try (split; [intros H; split; trivial; discriminate | intros [? ?]; trivial; discriminate]);
    try tauto;
    repeat match goal with
           | |- context [Qltb ?u ?v] =>
               let E := fresh "E" in
               destruct (Qltb u v) eqn:E;
               [apply Qltb_lt in E | apply Qltb_ge in E]
           end; cbn;
    rewrite ?Qltb_ge;
    split; intros; split_all; try discriminate; try lra; try tauto.
Qed.

Lemma num_ltb_between (tMin tMax : Num) (t : Q) :
  num_ltb tMax tMin = true -> ~ between (tMin, tMax) t.
Proof.
  unfold between, num_le. cbn [fst snd].
  destruct tMin as [| p |], tMax as [| q |]; cbn; try discriminate;
    intros H [H1 H2]; try discriminate.
  apply Qltb_lt in H. apply Qltb_ge in H1, H2. lra.
Qed.

(** The interval of distances at which a ray that is not parallel to an
    axis is within the obstacle's extent on that axis. *)
Lemma slab_interval (dir originValue lo hi t : Q) :
  ~ dir == 0 -> lo <= hi ->
  let t1 := (lo - originValue) / dir in
  let t2 := (hi - originValue) / dir in
  let enter := fst (if Qgtb t1 t2 then (t2, t1) else (t1, t2)) in
  let leave := snd (if Qgtb t1 t2 then (t2, t1) else (t1, t2)) in
  (enter <= t /\ t <= leave) <-> lo <= originValue + t * dir <= hi.
Proof.
  intros Hdir Hord. cbv zeta.
  assert (E1 : (lo - originValue) / dir * dir == lo - originValue)
    by (field; exact Hdir).
  assert (E2 : (hi - originValue) / dir * dir == hi - originValue)
    by (field; exact Hdir).
  set (t1 := (lo - originValue) / dir) in *.
  set (t2 := (hi - originValue) / dir) in *.
  assert (Hsign : 0 < dir \/ dir < 0).
  { destruct (Q_dec dir 0) as [[Hn | Hp] | Hz]; [now right | now left |].
    contradiction. }
  unfold Qgtb.
  destruct (Qltb t2 t1) eqn:E; [apply Qltb_lt in E | apply Qltb_ge in E];
    cbn [fst snd]; destruct Hsign as [Hpos | Hneg]; split; intros H;
    try (split; nra); try nra.
Qed.

Lemma parallel_nonzero (dir : Q) :
  Qltb (Qabs dir) (1 # 1000000) = false -> ~ dir == 0.
Proof.
  intros E Hz. apply Qltb_ge in E.
  destruct (Qabs_cases dir) as [[_ Ha] | [_ Ha]]; lra.
Qed.

(** One axis of the slab test: the bounds it returns admit exactly the
    distances the old bounds admitted at which the ray is within the
    extent [lo .. hi]; it gives up exactly when there is none. *)
Lemma slabStep_spec (acc : Num * Num) (dir originValue lo hi : Q) :
  lo <= hi -> sane acc ->
  let within t :=
    if Qltb (Qabs dir) (1 # 1000000)
    then lo <= originValue <= hi
    else lo <= originValue + t * dir <= hi in
  match slabStep acc dir originValue lo hi with
  | Some acc' =>
      sane acc' /\ forall t, between acc' t <-> between acc t /\ within t
  | None => forall t, ~ (between acc t /\ within t)
  end.
Proof.
  intros Hord Hsane. cbv zeta. unfold slabStep.
  destruct acc as [tMin tMax].
  destruct (Qltb (Qabs dir) (1 # 1000000)) eqn:Epar.
  - unfold Qgtb.
    destruct (Qltb originValue lo) eqn:E1;
      [apply Qltb_lt in E1 | apply Qltb_ge in E1]; cbn [orb].
    { intros t [_ H]. lra. }
    destruct (Qltb hi originValue) eqn:E2;
      [apply Qltb_lt in E2 | apply Qltb_ge in E2].
    { intros t [_ H]. lra. }
    split; [exact Hsane |]. intros t. split; [intros H; split; trivial; lra | tauto].
  - pose proof (parallel_nonzero dir Epar) as Hdir.
    assert (Hint : forall t, _) by
      (intros t; exact (slab_interval dir originValue lo hi t Hdir Hord)).
    cbv zeta in Hint.
    set (t1 := (lo - originValue) / dir) in *.
    set (t2 := (hi - originValue) / dir) in *.
    destruct (Qgtb t1 t2); cbn [fst snd] in Hint;
      match goal with
      | |- context [num_max tMin (Finite ?a)] => set (enter := a) in *
      end;
      match goal with
      | |- context [num_min tMax (Finite ?b)] => set (leave := b) in *
      end;
      (assert (Hbetween : forall t,
                 between (num_max tMin (Finite enter),
                          num_min tMax (Finite leave)) t
                 <-> between (tMin, tMax) t /\ (enter <= t /\ t <= leave))
         by (intros t; unfold between; cbn [fst snd];
             rewrite num_le_max, num_le_min, !num_le_Finite; tauto));
      (destruct (num_ltb (num_min tMax (Finite leave))
                   (num_max tMin (Finite enter))) eqn:Ecross;
       [ intros t [Hb Hw]; apply Hint in Hw;
         apply (num_ltb_between _ _ t Ecross), Hbetween; tauto
       | split;
         [ destruct tMin as [| p |], tMax as [| q |]; cbn in Hsane;
           try contradiction;
           unfold num_min, num_max in *; cbn in *;
           repeat match goal with
                  | |- context [Qltb ?u ?v] =>
                      let E := fresh "E" in
                      destruct (Qltb u v) eqn:E;
                      [apply Qltb_lt in E | apply Qltb_ge in E]
                  | H : context [Qltb ?u ?v] |- _ =>
                      let E := fresh "E" in
                      destruct (Qltb u v) eqn:E;
                      [apply Qltb_lt in E | apply Qltb_ge in E]
                  end; cbn in *; qbool; try discriminate; try lra
         | intros t; rewrite Hbetween, Hint; tauto ] ]).
Qed.

Variable origin direction : Vec3.

Lemma slabLoop_spec (obstacle : Aabb) (axis : list (Vec3 -> Q)) :
  (forall key, In key axis -> key (min obstacle) <= key (max obstacle)) ->
  forall acc, sane acc ->
  match slabLoop axis origin direction obstacle acc with
  | Some acc' =>
      sane acc'
      /\ forall t, between acc' t
                   <-> between acc t
                       /\ Forall (withinSlab origin direction obstacle t) axis
  | None =>
      forall t, ~ (between acc t
                   /\ Forall (withinSlab origin direction obstacle t) axis)
  end.
Proof.
  induction axis as [| key rest IH]; intros Hord acc Hsane; cbn [slabLoop].
  - split; trivial. intros t. split; [intros H; split; [exact H | constructor] | tauto].
  - pose proof (slabStep_spec acc (key direction) (key origin)
                  (key (min obstacle)) (key (max obstacle))
                  (Hord key (or_introl eq_refl)) Hsane) as Hstep.
    cbv zeta in Hstep.
    destruct (slabStep acc (key direction) (key origin)
                (key (min obstacle)) (key (max obstacle))) as [acc' |].
    + destruct Hstep as [Hsane' Hstep].
      specialize (IH (fun k Hk => Hord k (or_intror Hk)) acc' Hsane').
      destruct (slabLoop rest origin direction obstacle acc') as [acc'' |].
      * destruct IH as [Hsane'' IH]. split; trivial.
        intros t. rewrite IH, Hstep, Forall_cons_iff.
        unfold withinSlab at 2, nearlyParallel. tauto.
      * intros t [Hb Hall]. apply Forall_cons_iff in Hall.
        destruct Hall as [Hkey Hrest].
        apply (IH t). split; trivial. apply Hstep. split; trivial.
    + intros t [Hb Hall]. apply Forall_cons_iff in Hall.
      destruct Hall as [Hkey _]. apply (Hstep t). split; trivial.
Qed.

(** The loop over the three axes: its bounds admit exactly the distances
    at which the ray meets the obstacle. *)
Lemma slabLoop_hits (obstacle : Aabb) :
  wellFormedAabb obstacle ->
  match slabLoop [x; y; z] origin direction obstacle
          (NegInfinity, PosInfinity) with
  | Some acc =>
      sane acc /\ forall t, between acc t <-> hitsAt origin direction obstacle t
  | None => forall t, ~ hitsAt origin direction obstacle t
  end.
Proof.
  intros (Hx & Hy & Hz).
  assert (Hord : forall key, In key [x; y; z] ->
                 key (min obstacle) <= key (max obstacle))
    by (intros key [<- | [<- | [<- | []]]]; assumption).
  pose proof (slabLoop_spec obstacle [x; y; z] Hord
                (NegInfinity, PosInfinity) I) as Hloop.
  assert (Hall : forall t,
    Forall (withinSlab origin direction obstacle t) [x; y; z]
    <-> hitsAt origin direction obstacle t).
  { intros t. unfold hitsAt. rewrite !Forall_cons_iff.
    split; [tauto | intros (? & ? & ?); split_all; trivial]. }
  assert (Hinit : forall t, between (NegInfinity, PosInfinity) t)
    by (intros t; split; reflexivity).
  destruct (slabLoop [x; y; z] origin direction obstacle
              (NegInfinity, PosInfinity)) as [acc |].
  - destruct Hloop as [Hsane Hloop]. split; trivial.
    intros t. rewrite Hloop, Hall. split; [tauto | intros H; split; trivial].
  - intros t Hhit. apply (Hloop t). split; [apply Hinit | now apply Hall].
Qed.

(** A reported distance is never negative. *)
Lemma intersectRayAabb_nonnegative (obstacle : Aabb) (r : Num) :
  intersectRayAabb origin direction obstacle = Some r ->
  num_le (Finite 0) r.
Proof.
  unfold intersectRayAabb, num_geb, num_le.
  destruct (slabLoop _ _ _ _ _) as [[tMin tMax] |]; [| discriminate].
  destruct (num_ltb tMax (Finite 0)) eqn:E1; [discriminate |].
  destruct (num_ltb tMin (Finite 0)) eqn:E2; cbn [negb].
  - intros [= <-]. exact E1.
  - intros [= <-]. exact E2.
Qed.

(** X17.  A finite distance reported by [intersectRayAabb] for an obstacle
    with ordered corners is not negative, and at that distance the ray is
    within the obstacle on every axis (on an axis it is nearly parallel
    to, the origin is). *)
Theorem intersectRayAabb_sound (obstacle : Aabb) (t : Q)
    (Hbox : wellFormedAabb obstacle)
    (Hhit : intersectRayAabb origin direction obstacle = Some (Finite t)) :
  0 <= t /\ hitsAt origin direction obstacle t.
Proof.
  split.
  - apply num_le_Finite.
    exact (intersectRayAabb_nonnegative obstacle (Finite t) Hhit).
  - pose proof (slabLoop_hits obstacle Hbox) as Hloop.
    revert Hhit. unfold intersectRayAabb, num_geb.
    destruct (slabLoop _ _ _ _ _) as [[tMin tMax] |]; [| discriminate].
    destruct Hloop as [Hsane Hloop].
    destruct tMin as [| a |], tMax as [| b |]; cbn in Hsane;
      try contradiction.
    + cbn. discriminate.
    + cbn [num_ltb negb].
      destruct (Qltb b 0) eqn:E1; [discriminate |].
      destruct (Qltb a 0) eqn:E2; cbn [negb]; intros [= <-];
        qbool; apply Hloop; split; apply num_le_Finite; lra.
Qed.


Lemma num_le_refl (a : Num) : num_le a a.
Proof.
  unfold num_le. destruct a as [| p |]; cbn; trivial. apply Qltb_ge. lra.
Qed.

Lemma num_le_trans (a b c : Num) : num_le a b -> num_le b c -> num_le a c.
Proof.
  unfold num_le.
  destruct a as [| p |], b as [| q |], c as [| r |]; cbn; trivial;
    try discriminate.
  rewrite !Qltb_ge. intros; lra.
Qed.

Lemma num_ltb_le (a b : Num) : num_ltb a b = true -> num_le a b.
Proof.
  unfold num_le.
  destruct a as [| p |], b as [| q |]; cbn; trivial; try discriminate.
  rewrite Qltb_lt, Qltb_ge. intros; lra.
Qed.

(** The loop of [findNearestObstacleDistance], from any starting value:
    it ends on the least of the start and the reported distances, which is
    the start itself or the distance of some obstacle. *)
Lemma nearest_fold (obstacles : list Aabb) (start : Num) :
  let step :=
    fun nearest obstacle =>
      match intersectRayAabb origin direction obstacle with
      | None => nearest
      | Some hitDistance =>
          if num_ltb hitDistance nearest then hitDistance else nearest
      end in
  let nearest := fold_left step obstacles start in
  num_le nearest start
  /\ (forall o r, In o obstacles ->
        intersectRayAabb origin direction o = Some r -> num_le nearest r)
  /\ (nearest = start
      \/ exists o, In o obstacles
                   /\ intersectRayAabb origin direction o = Some nearest).
Proof.
  cbv zeta. revert start.
  induction obstacles as [| o rest IH]; intros start; cbn [fold_left].
  - split_all; [apply num_le_refl | intros o r [] | now left].
  - set (start' :=
           match intersectRayAabb origin direction o with
           | Some hitDistance =>
               if num_ltb hitDistance start then hitDistance else start
           | None => start
           end).
    destruct (IH start') as (Hle & Hall & Hsome).
    assert (Hstart' : num_le start' start
                      /\ (forall r, intersectRayAabb origin direction o
                                    = Some r -> num_le start' r)
                      /\ (start' = start
                          \/ intersectRayAabb origin direction o
                             = Some start')).
    { unfold start'.
      destruct (intersectRayAabb origin direction o) as [hit |].
      - destruct (num_ltb hit start) eqn:E.
        + split_all; [now apply num_ltb_le
                     | intros r [= <-]; apply num_le_refl | now right].
        + split_all; [apply num_le_refl | intros r [= <-]; exact E
                     | now left].
      - split_all; [apply num_le_refl | discriminate | now left]. }
    destruct Hstart' as (Hle' & Hthis & Hwhich).
    split_all.
    + eapply num_le_trans; eassumption.
    + intros o' r [<- | Hin] Hr.
      * eapply num_le_trans; [exact Hle | now apply Hthis].
      * now apply (Hall o').
    + destruct Hsome as [-> | (o' & Hin & Ho')].
      * destruct Hwhich as [-> | Ho]; [now left |].
        right. exists o. split; [now left | exact Ho].
      * right. exists o'. split; [now right | exact Ho'].
Qed.

Lemma findNearestObstacleDistance_none_iff (obstacles : list Aabb) :
  findNearestObstacleDistance origin direction obstacles = None
  <-> forall o t, In o obstacles ->
        intersectRayAabb origin direction o <> Some (Finite t).
Proof.
  pose proof (nearest_fold obstacles PosInfinity) as Hfold.
  cbv zeta in Hfold. unfold findNearestObstacleDistance.
  set (nearest := fold_left _ obstacles PosInfinity) in *.
  destruct Hfold as (_ & Hall & Hsome).
  split.
  - intros Hnone o t Hin Ho.
    specialize (Hall o (Finite t) Hin Ho).
    destruct nearest as [| q |];
      [| discriminate Hnone | discriminate Hall].
    destruct Hsome as [Hstart | (o' & _ & Ho')]; [discriminate |].
    pose proof (intersectRayAabb_nonnegative o' _ Ho') as Habs.
    discriminate Habs.
  - intros Hnone. destruct nearest as [| q |]; trivial.
    destruct Hsome as [Hstart | (o & Hin & Ho)]; [discriminate |].
    exfalso. exact (Hnone o q Hin Ho).
Qed.

(** X19.  [findNearestObstacleDistance] returns [null] for no obstacles; a
    distance it returns is not negative, is the distance reported for one
    of the obstacles, and is not above the distance reported for any
    obstacle; it returns [null] exactly when no obstacle reports a finite
    distance. *)
Theorem findNearestObstacleDistance_least (obstacles : list Aabb) :
  findNearestObstacleDistance origin direction [] = None
  /\ (forall d,
        findNearestObstacleDistance origin direction obstacles = Some d ->
        0 <= d
        /\ (exists o, In o obstacles
                      /\ intersectRayAabb origin direction o
                         = Some (Finite d))
        /\ (forall o r, In o obstacles ->
              intersectRayAabb origin direction o = Some r ->
              num_le (Finite d) r))
  /\ (findNearestObstacleDistance origin direction obstacles = None
      <-> forall o t, In o obstacles ->
            intersectRayAabb origin direction o <> Some (Finite t)).
Proof.
  split; [reflexivity | split; [| apply findNearestObstacleDistance_none_iff]].
  pose proof (nearest_fold obstacles PosInfinity) as Hfold.
  cbv zeta in Hfold. unfold findNearestObstacleDistance.
  set (nearest := fold_left _ obstacles PosInfinity) in *.
  destruct Hfold as (_ & Hall & Hsome).
  intros d Hd. destruct nearest as [| q |] eqn:En; try discriminate.
  injection Hd as ->.
  destruct Hsome as [Hstart | (o & Hin & Ho)]; [discriminate |].
  split_all.
  - apply num_le_Finite. exact (intersectRayAabb_nonnegative o _ Ho).
  - exists o. now split.
  - exact Hall.
Qed.

(** X20.  A ray whose direction is below 1e-6 on all three axes (the zero
    vector, for one) never yields a finite distance: [intersectRayAabb]
    gives [Infinity] when the origin is within the obstacle's extent and
    [null] otherwise, and [findNearestObstacleDistance] gives [null]. *)
Theorem degenerate_ray_hits_nothing (obstacles : list Aabb)
    (Hx : nearlyParallel x direction = true)
    (Hy : nearlyParallel y direction = true)
    (Hz : nearlyParallel z direction = true) :
  (forall o,
     intersectRayAabb origin direction o = Some PosInfinity
     \/ intersectRayAabb origin direction o = None)
  /\ findNearestObstacleDistance origin direction obstacles = None.
Proof.
  assert (Hone : forall o,
    intersectRayAabb origin direction o = Some PosInfinity
    \/ intersectRayAabb origin direction o = None).
  { intros o. unfold intersectRayAabb, slabLoop, slabStep.
    unfold nearlyParallel in Hx, Hy, Hz. rewrite Hx.
    destruct (_ || _); [now right |]. rewrite Hy.
    destruct (_ || _); [now right |]. rewrite Hz.
    destruct (_ || _); [now right |]. now left. }
  split; [exact Hone |].
  apply (findNearestObstacleDistance_none_iff obstacles).
  intros o t _ Ho. destruct (Hone o) as [H | H]; congruence.
Qed.

End RayCasting.

Lemma intersectRayAabb_sound_witness :
  wellFormedAabb wall
  /\ intersectRayAabb muzzle towardsWall wall = Some (Finite 0.52)
  /\ hitsAt muzzle towardsWall wall 0.52.
Proof.
  assert (Hbox : wellFormedAabb wall)
    by (unfold wellFormedAabb; cbn; repeat split; discriminate).
  assert (Hhit : intersectRayAabb muzzle towardsWall wall
                 = Some (Finite 0.52)) by reflexivity.
  split_all; trivial.
  exact (proj2 (intersectRayAabb_sound muzzle towardsWall wall 0.52 Hbox
                  Hhit)).
Defined.


Lemma findNearestObstacleDistance_least_witness :
  findNearestObstacleDistance muzzle towardsWall [cornerCrate; wall]
    = Some 0.52
  /\ 0 <= 0.52.
Proof.
  assert (Hnearest : findNearestObstacleDistance muzzle towardsWall
                       [cornerCrate; wall] = Some 0.52) by reflexivity.
  split; [exact Hnearest |].
  destruct (findNearestObstacleDistance_least muzzle towardsWall
              [cornerCrate; wall]) as (_ & Hsome & _).
  exact (proj1 (Hsome 0.52 Hnearest)).
Defined.

Lemma degenerate_ray_hits_nothing_witness :
  findNearestObstacleDistance muzzle noDirection [cornerCrate; wall] = None.
Proof.
  apply (degenerate_ray_hits_nothing muzzle noDirection [cornerCrate; wall]);
    reflexivity.
Defined.

(** ** Hit scan against remote players *)

Section HitScanProperties.

Local Open Scope Q_scope.

Variable Math_sqrt : Q -> Q.

(** X21.  [intersectRaySphere] returns [null] when the sphere's center is
    not ahead of the origin or the ray passes farther than the radius from
    it; a distance it returns is positive.  For a unit direction and a
    square root that is exact and non-negative on the value the code
    passes it, the distance is at most the projection of the center on the
    ray, and when the origin is outside the sphere the point of the ray at
    the returned distance lies on the sphere. *)
Theorem intersectRaySphere_contract (origin direction center : Vec3)
    (radius : Q) :
  let projected := vdot (vsub center origin) direction in
  let distSq :=
    distanceToSquared (vadd origin (multiplyScalar direction projected))
      center in
  let penetration := Math_sqrt (radius * radius - distSq) in
  (projected <= 0 \/ radius * radius < distSq ->
     intersectRaySphere Math_sqrt origin direction center radius = None)
  /\ (forall t,
        intersectRaySphere Math_sqrt origin direction center radius = Some t ->
        0 < t
        /\ 0 < projected /\ distSq <= radius * radius
        /\ (0 <= penetration -> t <= projected)
        /\ (vdot direction direction == 1 ->
            penetration * penetration == radius * radius - distSq ->
            0 < projected - penetration ->
            distanceToSquared (vadd origin (multiplyScalar direction t))
              center == radius * radius)).
Proof.
  cbv zeta. unfold intersectRaySphere, Qleb, Qgtb.
  set (projected := vdot (vsub center origin) direction).
  set (distSq :=
         distanceToSquared (vadd origin (multiplyScalar direction projected))
           center).
  set (penetration := Math_sqrt (radius * radius - distSq)).
  split.
  - intros [Hbehind | Hmiss].
    + apply Qle_bool_iff in Hbehind. now rewrite Hbehind.
    + destruct (Qle_bool projected 0); trivial.
      apply Qltb_lt in Hmiss. now rewrite Hmiss.
  - intros t.
    destruct (Qle_bool projected 0) eqn:Eahead; [discriminate |].
    apply Qle_bool_false in Eahead.
    destruct (Qltb (radius * radius) distSq) eqn:Emiss; [discriminate |].
    apply Qltb_ge in Emiss.
    destruct (Qltb 0 (projected - penetration)) eqn:Eout;
      [apply Qltb_lt in Eout | apply Qltb_ge in Eout];
      intros [= <-]; split_all; trivial; try lra; try (intros; lra).
    intros Hunit Hsqrt _.
    assert (Hsurface :
      distanceToSquared
        (vadd origin (multiplyScalar direction (projected - penetration)))
        center
      == distSq + penetration * penetration
         + (vdot direction direction - 1)
           * (penetration * penetration - 2 * projected * penetration)).
    { unfold distSq, projected, distanceToSquared, vadd, multiplyScalar,
        vdot, vsub. cbn [x y z]. ring. }
    rewrite Hsurface, Hunit, Hsqrt. ring.
Qed.

End HitScanProperties.

Lemma intersectRaySphere_contract_witness :
  intersectRaySphere sqrt_radii muzzle towardsWall
    {| x := 0; y := 1; z := -5 |} 0.62 = Some 4.38
  /\ distanceToSquared (vadd muzzle (multiplyScalar towardsWall 4.38))
       {| x := 0; y := 1; z := -5 |} == 0.62 * 0.62.
Proof.
  assert (Hhit : intersectRaySphere sqrt_radii muzzle towardsWall
                   {| x := 0; y := 1; z := -5 |} 0.62 = Some 4.38)
    by reflexivity.
  split; [exact Hhit |].
  destruct (intersectRaySphere_contract sqrt_radii muzzle towardsWall
              {| x := 0; y := 1; z := -5 |} 0.62) as (_ & Hsome).
  destruct (Hsome 4.38 Hhit) as (_ & _ & _ & _ & Hsurface).
  apply Hsurface; reflexivity.
Defined.

Section ShotSelection.

Local Open Scope Q_scope.

Variable Math_sqrt : Q -> Q.
Variable obstacles : list Aabb.
Variable localTeam : TeamName.
Variable origin direction : Vec3.

Let wallDistance : option Q :=
  findNearestObstacleDistance origin direction obstacles.

Lemma wallBlocks_test (d : Q) :
  match wallDistance with
  | Some w => Qgtb w 0.12 && Qltb (w + 0.04) d
  | None => false
  end = true
  <-> wallBlocks wallDistance d.
Proof.
  unfold wallBlocks. destruct wallDistance as [w |].
  - unfold Qgtb. rewrite andb_true_iff, !Qltb_lt. split.
    + intros [H1 H2]. exists w. now split_all.
    + intros (w' & [= <-] & H1 & H2). now split.
  - split; [discriminate | intros (w & Hw & _); discriminate].
Qed.

(** A remote player that cannot be hit changes nothing. *)
Lemma closestAmong_skip (seen : RemotePlayer -> Prop) (remote : RemotePlayer)
    (closest : option ShotHit) :
  (forall d, ~ hittable Math_sqrt obstacles origin direction remote d) ->
  closestAmong Math_sqrt obstacles origin direction seen closest ->
  closestAmong Math_sqrt obstacles origin direction
    (fun r => seen r \/ r = remote) closest.
Proof.
  intros Hno. unfold closestAmong. destruct closest as [h |].
  - intros [(r & Hr & Hhit & Hrep) Hleast]. split.
    + exists r. split_all; trivial. now left.
    + intros r' d [Hseen | ->] Hhit'; [now apply (Hleast r') |].
      exfalso. exact (Hno d Hhit').
  - intros Hnone r d [Hseen | ->]; [now apply Hnone | apply Hno].
Qed.

(** One iteration of the loop keeps what it knows, for one more player. *)
Lemma considerRemote_step (seen : RemotePlayer -> Prop)
    (remote : RemotePlayer) (closest : option ShotHit) :
  closestAmong Math_sqrt obstacles origin direction seen closest ->
  closestAmong Math_sqrt obstacles origin direction
    (fun r => seen r \/ r = remote)
    (considerRemote Math_sqrt localTeam origin direction wallDistance
       closest remote).
Proof.
  intros Hinv. unfold considerRemote. cbv zeta.
  destruct (alive remote) eqn:Ealive; cbn [negb].
  2:{ apply closestAmong_skip; trivial.
      intros d (Ha & _). congruence. }
  cbn [ALLOW_TEAM_DAMAGE negb andb].
  destruct (num_min _ _) as [| pd |] eqn:Esd.
  1,3: apply closestAmong_skip; trivial;
       intros d (_ & Hsd & _); unfold sphereDistance in Hsd; congruence.
  assert (Honly : forall d,
            hittable Math_sqrt obstacles origin direction remote d -> d = pd).
  { intros d (_ & Hsd & _). unfold sphereDistance in Hsd. congruence. }
  destruct (match wallDistance with
            | Some w => Qgtb w 0.12 && Qltb (w + 0.04) pd
            | None => false
            end) eqn:Eblocked.
  { apply closestAmong_skip; trivial.
    intros d Hhit. pose proof (Honly d Hhit) as ->.
    destruct Hhit as (_ & _ & Hfree). apply Hfree.
    now apply wallBlocks_test. }
  assert (Hhit : hittable Math_sqrt obstacles origin direction remote pd).
  { unfold hittable. split_all; trivial. intros Hb.
    apply wallBlocks_test in Hb. congruence. }
  set (found := {| hit_peerId := peerId remote;
                   hit_playerName := playerName remote;
                   distance := pd;
                   headshot := _ |}).
  assert (Hrep : reports Math_sqrt origin direction found remote).
  { unfold reports, found. cbn [hit_peerId hit_playerName headshot distance].
    split_all; trivial.
    destruct (intersectRaySphere Math_sqrt origin direction
                (vadd (targetPosition remote)
                      {| x := 0; y := headY remote; z := 0 |}) 0.36)
      as [headHit |]; [| discriminate].
    intros Hhead. exists headHit. split; trivial.
    unfold Qleb in Hhead. now apply Qle_bool_iff in Hhead. }
  unfold closestAmong in *. destruct closest as [current |].
  - destruct Hinv as [(r & Hr & Hrhit & Hrrep) Hleast].
    destruct (Qltb pd (distance current)) eqn:Ecloser;
      [apply Qltb_lt in Ecloser | apply Qltb_ge in Ecloser].
    + split.
      * exists remote. split_all; trivial. now right.
      * intros r' d [Hseen | ->] Hhit'.
        -- specialize (Hleast r' d Hseen Hhit'). cbn [distance found]. lra.
        -- rewrite (Honly d Hhit'). apply Qle_refl.
    + split.
      * exists r. split_all; trivial. now left.
      * intros r' d [Hseen | ->] Hhit'; [now apply (Hleast r') |].
        now rewrite (Honly d Hhit').
  - split.
    + exists remote. split_all; trivial. now right.
    + intros r' d [Hseen | ->] Hhit'.
      * exfalso. exact (Hinv r' d Hseen Hhit').
      * rewrite (Honly d Hhit'). apply Qle_refl.
Qed.

Lemma closestAmong_ext (seen seen' : RemotePlayer -> Prop)
    (closest : option ShotHit) :
  (forall r, seen r <-> seen' r) ->
  closestAmong Math_sqrt obstacles origin direction seen closest ->
  closestAmong Math_sqrt obstacles origin direction seen' closest.
Proof.
  intros Hsame. unfold closestAmong. destruct closest as [h |].
  - intros [(r & Hr & Hrest) Hleast]. split.
    + exists r. split; [now apply Hsame | exact Hrest].
    + intros r' d Hr'. apply Hleast. now apply Hsame.
  - intros Hnone r d Hr. apply Hnone. now apply Hsame.
Qed.

Lemma findShotHit_loop (rest : list RemotePlayer)
    (seen : RemotePlayer -> Prop) (closest : option ShotHit) :
  closestAmong Math_sqrt obstacles origin direction seen closest ->
  closestAmong Math_sqrt obstacles origin direction
    (fun r => seen r \/ In r rest)
    (fold_left
       (considerRemote Math_sqrt localTeam origin direction wallDistance)
       rest closest).
Proof.
  revert seen closest.
  induction rest as [| remote rest IH]; intros seen closest Hinv;
    cbn [fold_left].
  - apply (closestAmong_ext seen); [cbn; tauto | exact Hinv].
  - apply (closestAmong_ext
             (fun r => (seen r \/ r = remote) \/ In r rest)).
    + intros r. cbn [In]. split; intros H; intuition congruence.
    + apply IH, considerRemote_step, Hinv.
Qed.

(** X22.  [findShotHit] returns [null] exactly when no remote player can
    be hit (alive, with a sphere on the ray, and no wall in front); a hit
    it returns reports such a player by id and name, at that player's
    distance, which no other player that can be hit beats, and flags a
    headshot only when the ray meets the head sphere within 0.06 of that
    distance; dead players are never hit, and the local team plays no
    part: team mates are hit like anyone else. *)
Theorem findShotHit_nearest_target (remotePlayers : list RemotePlayer) :
  let result :=
    findShotHit Math_sqrt obstacles remotePlayers localTeam origin
      direction in
  (result = None
   <-> forall remote d, In remote remotePlayers ->
         ~ hittable Math_sqrt obstacles origin direction remote d)
  /\ (forall h, result = Some h ->
        (exists remote,
           In remote remotePlayers /\ alive remote = true
           /\ hittable Math_sqrt obstacles origin direction remote
                (distance h)
           /\ reports Math_sqrt origin direction h remote)
        /\ forall remote d, In remote remotePlayers ->
             hittable Math_sqrt obstacles origin direction remote d ->
             distance h <= d)
  /\ (forall otherTeam,
        findShotHit Math_sqrt obstacles remotePlayers otherTeam origin
          direction = result).
Proof.
  cbv zeta.
  assert (Hloop : closestAmong Math_sqrt obstacles origin direction
                    (fun r => In r remotePlayers)
                    (findShotHit Math_sqrt obstacles remotePlayers localTeam
                       origin direction)).
  { apply (closestAmong_ext (fun r => False \/ In r remotePlayers));
      [tauto |].
    apply (findShotHit_loop remotePlayers (fun _ => False) None).
    intros r d []. }
  unfold closestAmong in Hloop.
  destruct (findShotHit Math_sqrt obstacles remotePlayers localTeam origin
              direction) as [h |] eqn:Eresult.
  - destruct Hloop as [(r & Hr & Hhit & Hrep) Hleast].
    split_all.
    + split; [discriminate |]. intros Hnone. exfalso.
      exact (Hnone r _ Hr Hhit).
    + intros h' [= <-]. split; trivial.
      exists r. split_all; trivial. exact (proj1 Hhit).
    + intros otherTeam. rewrite <- Eresult. reflexivity.
  - split_all.
    + split; trivial.
    + discriminate.
    + intros otherTeam. rewrite <- Eresult. reflexivity.
Qed.

End ShotSelection.

Lemma findShotHit_nearest_target_witness :
  (exists h,
     findShotHit sqrt_radii [cornerCrate] [target] counter muzzle towardsWall
       = Some h
     /\ hit_peerId h = peerId target /\ distance h == 4.38)
  /\ alive target = true.
Proof.
  assert (Hhit : findShotHit sqrt_radii [cornerCrate] [target] counter muzzle
                   towardsWall
                 = Some {| hit_peerId := "peer-b"; hit_playerName := "Bravo";
                           distance := 4.380000; headshot := false |})
    by reflexivity.
  split.
  - eexists. split; [exact Hhit | split; reflexivity].
  - destruct (findShotHit_nearest_target sqrt_radii [cornerCrate] counter
                muzzle towardsWall [target]) as (_ & Hsome & _).
    destruct (Hsome _ Hhit) as [(remote & [<- | []] & Halive & _) _].
    exact Halive.
Defined.

Example findShotHit_blocked_by_wall :
  findShotHit sqrt_radii [wall] [target] counter muzzle towardsWall = None.
Proof. reflexivity. Qed.

(** ** Spawn points, the string hash and the minimap *)

Section SpawnAndHash.

Local Open Scope Q_scope.

Lemma firstSafeSpawn_some (obstacles : list Aabb) (points : list SpawnPoint)
    (spawn : SpawnPoint) :
  firstSafeSpawn obstacles points = Some spawn ->
  In spawn points /\ isSpawnSafe obstacles spawn = true.
Proof.
  induction points as [| q rest IH]; cbn [firstSafeSpawn]; [discriminate |].
  destruct (isSpawnSafe obstacles q) eqn:Esafe.
  - intros [= <-]. split; [now left | exact Esafe].
  - intros H. destruct (IH H) as [Hin Hs]. split; [now right | exact Hs].
Qed.

Lemma firstSafeSpawn_none_all (obstacles : list Aabb)
    (points : list SpawnPoint) :
  firstSafeSpawn obstacles points = None ->
  forall q, In q points -> isSpawnSafe obstacles q = false.
Proof.
  induction points as [| p rest IH]; cbn [firstSafeSpawn]; [intros _ q [] |].
  destruct (isSpawnSafe obstacles p) eqn:Esafe; [discriminate |].
  intros H q [<- | Hin]; [exact Esafe | now apply IH].
Qed.

(** X23.  [resolveSpawnPoint] returns the preferred point or a point of
    the spawn list, and returns an unsafe point only when the preferred
    point and every point of the list are unsafe; with no obstacles it
    returns the preferred point. *)
Theorem resolveSpawnPoint_best_effort (obstacles : list Aabb)
    (spawnPoints : list SpawnPoint) (preferred : SpawnPoint) :
  let chosen := resolveSpawnPoint obstacles spawnPoints preferred in
  (chosen = preferred \/ In chosen spawnPoints)
  /\ (isSpawnSafe obstacles chosen = false ->
      isSpawnSafe obstacles preferred = false
      /\ forall q, In q spawnPoints -> isSpawnSafe obstacles q = false)
  /\ resolveSpawnPoint [] spawnPoints preferred = preferred.
Proof.
  cbv zeta. unfold resolveSpawnPoint.
  destruct (isSpawnSafe obstacles preferred) eqn:Epref.
  - split_all; [now left | intros H; congruence | reflexivity].
  - destruct (firstSafeSpawn obstacles spawnPoints) as [spawn |] eqn:Escan.
    + destruct (firstSafeSpawn_some obstacles spawnPoints spawn Escan)
        as [Hin Hsafe].
      split_all; [now right | intros H; congruence | reflexivity].
    + split_all; [now left | | reflexivity].
      intros _. split; trivial.
      now apply firstSafeSpawn_none_all.
Qed.

(** X24.  A spawn point is safe among two sets of obstacles together
    exactly when it is safe among each: obstacles can only take safety
    away, and with no obstacle every point is safe. *)
Theorem isSpawnSafe_app (obstacles more : list Aabb) (spawn : SpawnPoint) :
  isSpawnSafe (obstacles ++ more) spawn
  = isSpawnSafe obstacles spawn && isSpawnSafe more spawn
  /\ isSpawnSafe [] spawn = true.
Proof.
  split; [| reflexivity]. unfold isSpawnSafe.
  induction obstacles as [| o rest IH]; cbn [app isSpawnSafe_from].
  - reflexivity.
  - destruct (negb _); [exact IH |].
    destruct (_ || _); [exact IH | reflexivity].
Qed.

(** X25.  [hashString] always returns a signed 32-bit integer; it is 0 on
    the empty string, and appending one character [c] to a string of
    hash [h] gives the hash [toInt32 (h * 31 + c)]. *)
Theorem hashString_incremental (input : JsString) (c : Z) :
  (- 2 ^ 31 <= hashString input < 2 ^ 31)%Z
  /\ hashString [] = 0%Z
  /\ hashString (input ++ [c]) = toInt32 (hashString input * 31 + c)%Z.
Proof.
  split_all.
  - rewrite hashString_rollingHash. apply rollingHash_range.
  - rewrite hashString_rollingHash. apply rollingHash_range.
  - reflexivity.
  - unfold hashString. rewrite fold_left_app. cbn [fold_left].
    apply hash_step.
Qed.

(** X26.  [worldToMap] puts every world position on the canvas: both
    coordinates lie between 0 and the canvas size; positions within the
    world map linearly, and positions beyond the world's edge at
    [WORLD_HALF_SIZE] land on the canvas edge. *)
Theorem worldToMap_on_canvas (wx wz width height : Q)
    (Hwidth : 0 <= width) (Hheight : 0 <= height) :
  0 <= fst (worldToMap wx wz width height) <= width
  /\ 0 <= snd (worldToMap wx wz width height) <= height
  /\ (- WORLD_HALF_SIZE <= wx <= WORLD_HALF_SIZE ->
      fst (worldToMap wx wz width height)
      == (wx + WORLD_HALF_SIZE) / (2 * WORLD_HALF_SIZE) * width)
  /\ (wx <= - WORLD_HALF_SIZE -> fst (worldToMap wx wz width height) == 0)
  /\ (WORLD_HALF_SIZE <= wx ->
      fst (worldToMap wx wz width height) == width).
Proof.
  unfold worldToMap, WORLD_HALF_SIZE. cbn [fst snd].
  assert (Hnorm : forall w, (w + 31) / (31 * 2) == (w + 31) * (1 # 62))
    by (intros w; field).
  assert (Hclamp : forall v, 0 <= clamp v 0 1 <= 1)
    by (intros v; apply clamp_bounds; lra).
  pose proof (Hclamp ((wx + 31) / (31 * 2))) as [Hx0 Hx1].
  pose proof (Hclamp ((wz + 31) / (31 * 2))) as [Hz0 Hz1].
  split_all; try nra.
  - intros [Hlo Hhi].
    assert (E : clamp ((wx + 31) / (31 * 2)) 0 1 == (wx + 31) / (31 * 2)).
    { unfold clamp, Qgtb.
      destruct (Qltb _ 0) eqn:E1; [apply Qltb_lt in E1; rewrite Hnorm in E1; lra |].
      destruct (Qltb 1 _) eqn:E2; [apply Qltb_lt in E2; rewrite Hnorm in E2; lra |].
      reflexivity. }
    rewrite E. field.
  - intros Hlo.
    assert (E : clamp ((wx + 31) / (31 * 2)) 0 1 == 0).
    { unfold clamp, Qgtb.
      destruct (Qltb _ 0) eqn:E1; [reflexivity |].
      apply Qltb_ge in E1. rewrite Hnorm in E1.
      destruct (Qltb 1 _) eqn:E2; [apply Qltb_lt in E2; rewrite Hnorm in E2; lra |].
      rewrite Hnorm. lra. }
    rewrite E. ring.
  - intros Hhi.
    assert (E : clamp ((wx + 31) / (31 * 2)) 0 1 == 1).
    { unfold clamp, Qgtb.
      destruct (Qltb _ 0) eqn:E1; [apply Qltb_lt in E1; rewrite Hnorm in E1; lra |].
      destruct (Qltb 1 _) eqn:E2; [reflexivity |].
      apply Qltb_ge in E2. rewrite Hnorm in E2. rewrite Hnorm. lra. }
    rewrite E. ring.
Qed.

End SpawnAndHash.

Lemma resolveSpawnPoint_best_effort_witness :
  isSpawnSafe [cornerCrate]
    (resolveSpawnPoint [cornerCrate] [cornerSpawn] cornerSpawn) = false
  /\ isSpawnSafe [cornerCrate] cornerSpawn = false.
Proof.
  assert (Hunsafe : isSpawnSafe [cornerCrate]
                      (resolveSpawnPoint [cornerCrate] [cornerSpawn]
                         cornerSpawn) = false) by reflexivity.
  split; [exact Hunsafe |].
  destruct (resolveSpawnPoint_best_effort [cornerCrate] [cornerSpawn]
              cornerSpawn) as (_ & Hall & _).
  exact (proj1 (Hall Hunsafe)).
Defined.

Lemma worldToMap_on_canvas_witness :
  fst (worldToMap 40 0 200 200) == 200.
Proof.
  destruct (worldToMap_on_canvas 40 0 200 200) as (_ & _ & _ & _ & Hedge);
    [cbn; discriminate .. |].
  apply Hedge. cbn; discriminate.
Defined.
